(** * FlexDB: a shallow embedding of the transactional store of flexdb.go

    The development follows src/flexdb.go: the records of the store, the
    transaction overlay, Commit, Get, GetAll, Set, Delete, Rollback, the
    query pipeline and the migration runner, and then the properties of the
    specification that can be settled on them.

    Conventions.
    - A Go [Entity] is an interface holding a pointer to a struct; the nil
      interface is [None] of [option Entity].
    - A panic is the outcome [Panics]; an [error] is [option string], with
      [None] for Go's nil.
    - Go leaves the iteration order of [range] over a map unspecified: every
      function that ranges over a map takes the order as the argument
      [range], and the theorems that need it assume only that [range m]
      enumerates the entries of [m].
    - The clock read by the cache is the argument [now] (nanoseconds).
    - The outcome of save is the argument [io]: success, or the step that
      fails and its error; the file itself is the field [disk]. *)

From Stdlib Require Import ZArith Ascii String List Sorting.Sorted Lia.
From stdpp Require Import gmap strings list fin_maps.

Local Open Scope string_scope.

(** ** Values, entities and reflection *)

(** The value of a struct field, as far as the store looks at it: its kind
    ([String()] of reflect), and whether it implements [Comparable]. *)
Inductive Value :=
| VString (s : string)
| VInt (n : Z)
| VBool (b : bool)
| VComparable (tname : string) (rank : Z)
    (* a caller's type with a Compare method, ordered by [rank] *)
| VOpaque (tname : string).
    (* any other type: a map, a struct, a time.Time, ... *)

#[global] Instance Value_eq_dec : EqDecision Value.
Proof. solve_decision. Defined.

(** The three struct types that reach the store: *GenericEntity (made by
    load), *MigrationVersion, and a caller's struct such as the tests'
    *TestEntity, with its ID field and its other exported fields. *)
Inductive Entity :=
| GenericEntity (ID : string) (Fields : gmap string Value)
| MigrationVersion (ID : string) (Version : Z)
| StructEntity (tname : string) (ID : string) (fields : list (string * Value)).

#[global] Instance Entity_eq_dec : EqDecision Entity.
Proof. solve_decision. Defined.

Definition GetID (e : Entity) : string :=
  match e with
  | GenericEntity id _ => id
  | MigrationVersion id _ => id
  | StructEntity _ id _ => id
  end.

Fixpoint assoc (name : string) (fs : list (string * Value)) : option Value :=
  match fs with
  | [] => None
  | (n, v) :: fs' => if String.eqb n name then Some v else assoc name fs'
  end.

(** [reflect.ValueOf(e).Elem().FieldByName(field)] on a non-nil entity;
    [None] is reflect's zero Value (no such field). *)
Definition FieldByName (e : Entity) (field : string) : option Value :=
  match e with
  | GenericEntity id _ =>
      if String.eqb field "ID" then Some (VString id)
      else if String.eqb field "Fields" then Some (VOpaque "map[string]interface {}")
      else None
  | MigrationVersion id v =>
      if String.eqb field "ID" then Some (VString id)
      else if String.eqb field "Version" then Some (VInt v)
      else None
  | StructEntity _ id fs =>
      if String.eqb field "ID" then Some (VString id) else assoc field fs
  end.

(** [reflect.Value.String]: the string itself for a string, and a
    placeholder for every other kind; it never panics. *)
Definition ValueString (v : option Value) : string :=
  match v with
  | None => "<invalid Value>"
  | Some (VString s) => s
  | Some (VInt _) => "<int Value>"
  | Some (VBool _) => "<bool Value>"
  | Some (VComparable t _) => "<" ++ t ++ " Value>"
  | Some (VOpaque t) => "<" ++ t ++ " Value>"
  end.

(** Outcomes of code that may panic. *)
Inductive Outcome (A : Type) :=
| Returns (a : A)
| Panics.
Arguments Returns {A} a.
Arguments Panics {A}.

Definition error := option string.

(** [reflect.ValueOf(entity).Elem().FieldByName(field).String()], as Commit
    and AddIndex write it: [Elem] of the zero Value panics, so a nil entity
    panics. *)
Definition fieldString (entity : option Entity) (field : string) : Outcome string :=
  match entity with
  | None => Panics
  | Some e => Returns (ValueString (FieldByName e field))
  end.

(** ** The cache (github.com/patrickmn/go-cache), by its documented
    behaviour: an item carries its expiry time, and Get misses an item whose
    time has passed. *)
Record Item := { Object : Entity; Expiration : Z }.

#[global] Instance Item_eq_dec : EqDecision Item.
Proof. solve_decision. Defined.

(** cache.New(5*time.Minute, 10*time.Minute): the default expiration. *)
Definition DefaultExpiration : Z := 300000000000.

Definition cache_Get (now : Z) (c : gmap string Item) (k : string) : option Entity :=
  match c !! k with
  | None => None
  | Some it =>
      if (0 <? Expiration it)%Z && (Expiration it <? now)%Z then None
      else Some (Object it)
  end.

Definition cache_Set (now : Z) (c : gmap string Item) (k : string) (x : Entity)
  : gmap string Item :=
  <[k := {| Object := x; Expiration := (now + DefaultExpiration)%Z |}]> c.

Definition cache_Delete (c : gmap string Item) (k : string) : gmap string Item :=
  delete k c.

(** fmt.Sprintf("%s:%s", entityType, id) *)
Definition getCacheKey (entityType id : string) : string :=
  entityType ++ ":" ++ id.

(** ** The store and the transaction *)

(** The file at [path]: absent, holding the JSON document of a canonical
    map, or holding bytes that are no JSON document (what os.WriteFile leaves
    when it fails after opening the file with O_TRUNC: an empty file or a
    proper prefix of the document). *)
Inductive File :=
| NoFile
| Stored (content : gmap string (gmap string Entity))
| Truncated.

(** The mutable part of [Database]: data, indexes and cache, with [disk] for
    the file at [path]. The lock is not modelled (one caller at a time);
    hooks and migrations hold callbacks that act on this record and are kept
    apart, in [Registry]. *)
Record Database := {
  data : gmap string (gmap string Entity);
  indexes : gmap string (gmap string (gmap string (list string)));
  cache : gmap string Item;
  disk : File
}.

Definition set_data (f : gmap string (gmap string Entity) -> gmap string (gmap string Entity))
  (db : Database) : Database :=
  {| data := f (data db); indexes := indexes db; cache := cache db; disk := disk db |}.

Definition set_indexes
  (f : gmap string (gmap string (gmap string (list string))) ->
       gmap string (gmap string (gmap string (list string))))
  (db : Database) : Database :=
  {| data := data db; indexes := f (indexes db); cache := cache db; disk := disk db |}.

Definition set_cache (f : gmap string Item -> gmap string Item) (db : Database) : Database :=
  {| data := data db; indexes := indexes db; cache := f (cache db); disk := disk db |}.

Definition set_disk (d : File) (db : Database) : Database :=
  {| data := data db; indexes := indexes db; cache := cache db; disk := d |}.

(** NewDatabase on a path with no file. *)
Definition NewDatabase : Database :=
  {| data := ∅; indexes := ∅; cache := ∅; disk := NoFile |}.

Record Transaction := {
  readOnly : bool;
  changes : gmap string (gmap string (option Entity));
  committed : bool
}.

Definition set_changes
  (f : gmap string (gmap string (option Entity)) -> gmap string (gmap string (option Entity)))
  (tx : Transaction) : Transaction :=
  {| readOnly := readOnly tx; changes := f (changes tx); committed := committed tx |}.

Definition Transact (ro : bool) : Transaction :=
  {| readOnly := ro; changes := ∅; committed := false |}.

(** tx.changes = make(...) *)
Definition Rollback (tx : Transaction) : Transaction :=
  set_changes (fun _ => ∅) tx.

(** Transaction.Get: the overlay first (a staged entry is returned as it is,
    with true), then the cache, then the canonical map, which fills the
    cache. *)
Definition Get (now : Z) (tx : Transaction) (db : Database) (entityType id : string)
  : (option Entity * bool) * Database :=
  match changes tx !! entityType ≫= (fun changedEntities => changedEntities !! id) with
  | Some entity => ((entity, true), db)
  | None =>
      match cache_Get now (cache db) (getCacheKey entityType id) with
      | Some cachedEntity => ((Some cachedEntity, true), db)
      | None =>
          match data db !! entityType ≫= (fun entities => entities !! id) with
          | Some entity =>
              ((Some entity, true),
               set_cache (fun c => cache_Set now c (getCacheKey entityType id) entity) db)
          | None => ((None, false), db)
          end
      end
  end.

(** ** Nested Go maps: m[k1][k2] *)

Definition nested_lookup {A} (k1 k2 : string) (m : gmap string (gmap string A)) : option A :=
  m !! k1 ≫= (fun inner => inner !! k2).

(** if m[k] == nil { m[k] = make(...) } *)
Definition ensure {A} (k : string) (m : gmap string (gmap string A))
  : gmap string (gmap string A) :=
  match m !! k with
  | None => <[k := ∅]> m
  | Some _ => m
  end.

(** m[k1][k2] = v and delete(m[k1], k2), on an inner map that exists. *)
Definition nested_insert {A} (k1 k2 : string) (v : A) (m : gmap string (gmap string A))
  : gmap string (gmap string A) :=
  alter (fun inner => <[k2 := v]> inner) k1 m.

Definition nested_delete {A} (k1 k2 : string) (m : gmap string (gmap string A))
  : gmap string (gmap string A) :=
  alter (fun inner => delete k2 inner) k1 m.

(** A loop over the entries of a map, in the order given, whose body may
    panic. *)
Fixpoint forEach {A S : Type} (body : string -> A -> S -> Outcome S)
  (entries : list (string * A)) (s : S) : Outcome S :=
  match entries with
  | [] => Returns s
  | (k, v) :: rest =>
      match body k v s with
      | Returns s' => forEach body rest s'
      | Panics => Panics
      end
  end.

(** ** Callbacks: hooks and migration functions

    A callback receives the transaction (and through it the store) and may
    call the exported methods: its effect is a new overlay, a new committed
    flag, a new store, and the error it returns. Callbacks are taken to
    return (no panic, no divergence). *)
Record Effect := {
  eff_changes : gmap string (gmap string (option Entity));
  eff_committed : bool;
  eff_db : Database;
  eff_err : error
}.

Definition Hook := Transaction -> Database -> string -> option Entity -> Effect.
Definition MigrationFunc := Transaction -> Database -> Effect.

Record Migration := {
  Version : Z;
  Up : MigrationFunc;
  Down : MigrationFunc
}.

Record Registry := {
  hooks : gmap string (list Hook);
  migrations : list Migration
}.

Definition RegisterHook (operation : string) (hook : Hook) (r : Registry) : Registry :=
  {| hooks := <[operation := (default [] (hooks r !! operation) ++ [hook])%list]> (hooks r);
     migrations := migrations r |}.

Definition AddMigration (version : Z) (up down : MigrationFunc) (r : Registry) : Registry :=
  {| hooks := hooks r;
     migrations := (migrations r ++ [{| Version := version; Up := up; Down := down |}])%list |}.

Definition after (tx : Transaction) (r : Effect) : Transaction :=
  {| readOnly := readOnly tx; changes := eff_changes r; committed := eff_committed r |}.

(** for _, hook := range hooks { if err := hook(tx, entityType, entity); err != nil { return err } } *)
Fixpoint runHooks (hs : list Hook) (entityType : string) (entity : option Entity)
  (tx : Transaction) (db : Database) : Transaction * Database * error :=
  match hs with
  | [] => (tx, db, None)
  | hook :: hs' =>
      let r := hook tx db entityType entity in
      match eff_err r with
      | Some err => (after tx r, eff_db r, Some err)
      | None => runHooks hs' entityType entity (after tx r) (eff_db r)
      end
  end.

Definition hooksFor (r : Registry) (operation : string) : list Hook :=
  default [] (hooks r !! operation).

Definition stage (entityType id : string) (entity : option Entity) (tx : Transaction)
  : Transaction :=
  set_changes (fun ch => nested_insert entityType id entity (ensure entityType ch)) tx.

(** Transaction.Set (the entity is a record: a nil one panics in GetID). *)
Definition Set_ (reg : Registry) (entityType : string) (entity : Entity)
  (tx : Transaction) (db : Database) : Transaction * Database * error :=
  if readOnly tx then (tx, db, Some "cannot modify data in a read-only transaction")
  else
    match runHooks (hooksFor reg "pre-set") entityType (Some entity) tx db with
    | (tx1, db1, Some err) => (tx1, db1, Some err)
    | (tx1, db1, None) =>
        let tx2 := stage entityType (GetID entity) (Some entity) tx1 in
        runHooks (hooksFor reg "post-set") entityType (Some entity) tx2 db1
    end.

(** Transaction.Delete *)
Definition Delete (now : Z) (reg : Registry) (entityType id : string)
  (tx : Transaction) (db : Database) : Transaction * Database * error :=
  if readOnly tx then (tx, db, Some "cannot modify data in a read-only transaction")
  else
    let '((entity, exists_), db0) := Get now tx db entityType id in
    match (if exists_ then runHooks (hooksFor reg "pre-delete") entityType entity tx db0
           else (tx, db0, None)) with
    | (tx1, db1, Some err) => (tx1, db1, Some err)
    | (tx1, db1, None) =>
        let tx2 := stage entityType id None tx1 in
        if exists_ then runHooks (hooksFor reg "post-delete") entityType entity tx2 db1
        else (tx2, db1, None)
    end.

(** ** Commit, save and AddIndex *)

(** The step of save that fails: json.MarshalIndent, os.MkdirAll, or
    os.WriteFile, which opens the file with O_CREATE|O_TRUNC, writes and
    closes it. A failure of Write or Close comes after the truncation;
    [whole] tells whether all the bytes had reached the file by then (an
    error of Close alone) or not. *)
Inductive Failure :=
| InMarshal
| InMkdirAll
| InOpen
| InWrite (whole : bool).

(** What the environment answers to save: every step succeeds, or one of
    them fails with an error. *)
Inductive IOResult :=
| WriteOk
| WriteFails (step : Failure) (err : string).

(** The file os.WriteFile leaves behind when it fails after the open. *)
Definition leftover (whole : bool) (db : Database) : File :=
  if whole then Stored (data db) else Truncated.

Definition save (io : IOResult) (db : Database) : Database * error :=
  match io with
  | WriteOk => (set_disk (Stored (data db)) db, None)
  | WriteFails InMarshal err => (db, Some err)
  | WriteFails InMkdirAll err => (db, Some err)
  | WriteFails InOpen err => (db, Some err)
  | WriteFails (InWrite whole) err => (set_disk (leftover whole db) db, Some err)
  end.

(** index[value] = append(index[value], id), on db.indexes[entityType][field] *)
Definition appendIndex (entityType field value id : string)
  (ix : gmap string (gmap string (gmap string (list string))))
  : gmap string (gmap string (gmap string (list string))) :=
  alter (alter (fun index => <[value := (default [] (index !! value) ++ [id])%list]> index) field)
        entityType ix.

Section MapOrder.

(** The order in which [range] visits a map. *)
Variable range : forall A : Type, gmap string A -> list (string * A).

(** The "Update indexes" loop of Commit, for one staged entry. *)
Definition updateIndexes (entityType id : string) (entity : option Entity) (db : Database)
  : Outcome Database :=
  forEach (fun field (_ : gmap string (list string)) db =>
             match fieldString entity field with
             | Panics => Panics
             | Returns value =>
                 Returns (set_indexes (appendIndex entityType field value id) db)
             end)
          (range _ (default ∅ (indexes db !! entityType))) db.

(** The body of Commit's inner loop: one staged (id, entity). *)
Definition applyChange (now : Z) (entityType id : string) (entity : option Entity)
  (db : Database) : Outcome Database :=
  let db1 :=
    match entity with
    | None =>
        set_cache (fun c => cache_Delete c (getCacheKey entityType id))
          (set_data (nested_delete entityType id) db)
    | Some e =>
        set_cache (fun c => cache_Set now c (getCacheKey entityType id) e)
          (set_data (nested_insert entityType id e) db)
    end in
  updateIndexes entityType id entity db1.

(** The two loops of Commit over tx.changes. *)
Definition applyChanges (now : Z) (ch : gmap string (gmap string (option Entity)))
  (db : Database) : Outcome Database :=
  forEach (fun entityType entities db =>
             forEach (applyChange now entityType) (range _ entities)
                     (set_data (ensure entityType) db))
          (range _ ch) db.

(** Transaction.Commit *)
Definition Commit (now : Z) (io : IOResult) (tx : Transaction) (db : Database)
  : Outcome (Transaction * Database * error) :=
  if readOnly tx then Returns (tx, db, None)
  else
    match applyChanges now (changes tx) db with
    | Panics => Panics
    | Returns db1 =>
        let tx1 := {| readOnly := readOnly tx; changes := changes tx; committed := true |} in
        let '(db2, err) := save io db1 in
        Returns (tx1, db2, err)
    end.

(** Database.AddIndex: the entities of the canonical map are records, so
    the reflection does not panic here. *)
Definition AddIndex (entityType field : string) (db : Database) : Database :=
  let db1 :=
    set_indexes
      (fun ix => alter (fun fields => <[field := ∅]> fields) entityType (ensure entityType ix))
      db in
  fold_left (fun db '(id, entity) =>
               set_indexes
                 (appendIndex entityType field (ValueString (FieldByName entity field)) id) db)
            (range _ (default ∅ (data db !! entityType))) db1.

End MapOrder.

(** The order of stdpp's map_to_list, one admissible order. *)
Definition range_list : forall A : Type, gmap string A -> list (string * A) :=
  fun A m => map_to_list m.

(** ** GetAll and the query pipeline *)

(** entities = append(entities[:i], entities[i+1:]...) at the first i with
    entities[i].GetID() == id *)
Fixpoint removeFirst (id : string) (entities : list Entity) : list Entity :=
  match entities with
  | [] => []
  | e :: rest => if String.eqb (GetID e) id then rest else e :: removeFirst id rest
  end.

(** entities[i] = entity at the first i with entities[i].GetID() == id, and
    append(entities, entity) when there is none. *)
Fixpoint replaceOrAppend (id : string) (entity : Entity) (entities : list Entity)
  : list Entity :=
  match entities with
  | [] => [entity]
  | e :: rest =>
      if String.eqb (GetID e) id then entity :: rest
      else e :: replaceOrAppend id entity rest
  end.

Section Queries.

Variable range : forall A : Type, gmap string A -> list (string * A).

(** Transaction.GetAll *)
Definition GetAll (tx : Transaction) (db : Database) (entityType : string) : list Entity :=
  let entities :=
    match data db !! entityType with
    | Some entityMap => map snd (range _ entityMap)
    | None => []
    end in
  match changes tx !! entityType with
  | Some changedEntities =>
      fold_left (fun entities '(id, entity) =>
                   match entity with
                   | None => removeFirst id entities
                   | Some e => replaceOrAppend id e entities
                   end)
                (range _ changedEntities) entities
  | None => entities
  end.

(** A filter is a Go closure over an entity; it may panic. *)
Record Query := {
  entityType_ : string;
  filters : list (Entity -> Outcome bool);
  limit : Z;
  offset : Z;
  orderBy : string;
  orderDesc : bool
}.

Definition NewQuery (entityType : string) : Query :=
  {| entityType_ := entityType; filters := []; limit := 0; offset := 0;
     orderBy := ""; orderDesc := false |}.

Definition OrderBy (field : string) (desc : bool) (q : Query) : Query :=
  {| entityType_ := entityType_ q; filters := filters q; limit := limit q;
     offset := offset q; orderBy := field; orderDesc := desc |}.

(** The filter of WhereLike: strings.Contains on the String() of the field. *)
Fixpoint contains_from (fuel : nat) (s sub : string) : bool :=
  if String.prefix sub s then true
  else match fuel, s with
       | S fuel', String _ s' => contains_from fuel' s' sub
       | _, _ => false
       end.

Definition Contains (s sub : string) : bool := contains_from (String.length s) s sub.

Definition WhereLike (field value : string) (q : Query) : Query :=
  {| entityType_ := entityType_ q;
     filters := (filters q ++
                 [fun e => Returns (Contains (ValueString (FieldByName e field)) value)])%list;
     limit := limit q; offset := offset q; orderBy := orderBy q; orderDesc := orderDesc q |}.

(** The loop over q.filters for one entity: the first filter that rejects
    stops the loop. *)
Fixpoint matches (fs : list (Entity -> Outcome bool)) (e : Entity) : Outcome bool :=
  match fs with
  | [] => Returns true
  | filter :: fs' =>
      match filter e with
      | Panics => Panics
      | Returns false => Returns false
      | Returns true => matches fs' e
      end
  end.

Fixpoint filterAll (fs : list (Entity -> Outcome bool)) (entities : list Entity)
  : Outcome (list Entity) :=
  match entities with
  | [] => Returns []
  | e :: rest =>
      match matches fs e with
      | Panics => Panics
      | Returns m =>
          match filterAll fs rest with
          | Panics => Panics
          | Returns results => Returns (if m then e :: results else results)
          end
      end
  end.

(** v.Interface().(Comparable): panics on the zero Value and on a value
    whose type has no Compare method. *)
Definition asComparable (v : option Value) : Outcome Z :=
  match v with
  | Some (VComparable _ rank) => Returns rank
  | _ => Panics
  end.

(** Compare of the modelled Comparable values: the sign of the comparison
    of their ranks. *)
Definition Compare (a b : Z) : Z :=
  match (a ?= b)%Z with
  | Lt => (-1)%Z
  | Eq => 0%Z
  | Gt => 1%Z
  end.

(** The less function Execute hands to sort.Slice. *)
Definition orderLess (field : string) (desc : bool) (ei ej : Entity) : Outcome bool :=
  match asComparable (FieldByName ei field) with
  | Panics => Panics
  | Returns ci =>
      match asComparable (FieldByName ej field) with
      | Panics => Panics
      | Returns cj =>
          if desc then Returns (0 <? Compare ci cj)%Z
          else Returns (Compare ci cj <? 0)%Z
      end
  end.

(** sort.Slice on at most 12 elements is Go's insertion sort
    (insertionSortLessFunc): element i moves left while it is less than its
    left neighbour. [sorted_rev] is the sorted prefix, last element first.
    Longer slices go through pdqsort's partitioning, which is not modelled:
    the model stands for them up to the order of equal elements. *)
Fixpoint insertLeft (less : Entity -> Entity -> Outcome bool) (x : Entity)
  (sorted_rev : list Entity) : Outcome (list Entity) :=
  match sorted_rev with
  | [] => Returns [x]
  | y :: rest =>
      match less x y with
      | Panics => Panics
      | Returns false => Returns (x :: y :: rest)
      | Returns true =>
          match insertLeft less x rest with
          | Panics => Panics
          | Returns rest' => Returns (y :: rest')
          end
      end
  end.

Fixpoint insertionSort (less : Entity -> Entity -> Outcome bool)
  (sorted_rev todo : list Entity) : Outcome (list Entity) :=
  match todo with
  | [] => Returns (rev sorted_rev)
  | x :: todo' =>
      match insertLeft less x sorted_rev with
      | Panics => Panics
      | Returns sorted_rev' => insertionSort less sorted_rev' todo'
      end
  end.

Definition sortSlice (less : Entity -> Entity -> Outcome bool) (results : list Entity)
  : Outcome (list Entity) :=
  insertionSort less [] results.

(** Query.Execute: its error is always nil. *)
Definition Execute (q : Query) (tx : Transaction) (db : Database)
  : Outcome (list Entity * error) :=
  match filterAll (filters q) (GetAll tx db (entityType_ q)) with
  | Panics => Panics
  | Returns results =>
      match (if String.eqb (orderBy q) "" then Returns results
             else sortSlice (orderLess (orderBy q) (orderDesc q)) results) with
      | Panics => Panics
      | Returns results =>
          if (0 <? offset q)%Z && (Z.of_nat (length results) <=? offset q)%Z
          then Returns ([], None)
          else
            let results :=
              if (0 <? offset q)%Z then drop (Z.to_nat (offset q)) results else results in
            let results :=
              if (0 <? limit q)%Z && (limit q <? Z.of_nat (length results))%Z
              then take (Z.to_nat (limit q)) results else results in
            Returns (results, None)
      end
  end.

End Queries.

(** ** Migrations *)

Definition getCurrentVersion (now : Z) (tx : Transaction) (db : Database)
  : (Z * error) * Database :=
  let '((entity, ok), db') := Get now tx db "migration" "current_version" in
  if negb ok then ((0%Z, None), db')
  else
    match entity with
    | Some (MigrationVersion _ version) => ((version, None), db')
    | _ => ((0%Z, Some "invalid entity type for migration version"), db')
    end.

Definition setCurrentVersion (reg : Registry) (version : Z) (tx : Transaction) (db : Database)
  : Transaction * Database * error :=
  Set_ reg "migration" (MigrationVersion "current_version" version) tx db.

(** The loop of Migrate over db.migrations, a slice: registration order. *)
Fixpoint migrateLoop (reg : Registry) (currentVersion targetVersion : Z)
  (ms : list Migration) (tx : Transaction) (db : Database)
  : Transaction * Database * error :=
  match ms with
  | [] => (tx, db, None)
  | migration :: rest =>
      if (currentVersion <? Version migration)%Z && (Version migration <=? targetVersion)%Z
      then
        let r := Up migration tx db in
        match eff_err r with
        | Some err => (after tx r, eff_db r, Some err)
        | None =>
            match setCurrentVersion reg (Version migration) (after tx r) (eff_db r) with
            | (tx2, db2, Some err) => (tx2, db2, Some err)
            | (tx2, db2, None) => migrateLoop reg currentVersion targetVersion rest tx2 db2
            end
        end
      else migrateLoop reg currentVersion targetVersion rest tx db
  end.

(** Database.Migrate. The transaction is local: the deferred Rollback
    empties its overlay and it is dropped, so the store and the error are
    what the caller is left with. *)
Definition Migrate (range : forall A : Type, gmap string A -> list (string * A))
  (now : Z) (io : IOResult) (reg : Registry) (targetVersion : Z) (db : Database)
  : Outcome (Database * error) :=
  let tx := Transact false in
  let '((currentVersion, err), db0) := getCurrentVersion now tx db in
  match err with
  | Some e => Returns (db0, Some e)
  | None =>
      match migrateLoop reg currentVersion targetVersion (migrations reg) tx db0 with
      | (_, db1, Some e) => Returns (db1, Some e)
      | (tx1, db1, None) =>
          match Commit range now io tx1 db1 with
          | Panics => Panics
          | Returns (_, db2, err) => Returns (db2, err)
          end
      end
  end.

(** ** Notions used by the statements *)

(** The canonical map a commit of the overlay [ch] leaves, written without
    any iteration order: a staged record is installed, a tombstone removes
    the id, every other id is kept, and every staged type gets an inner
    map. *)
Definition overlayInner (entries : gmap string (option Entity)) (inner : gmap string Entity)
  : gmap string Entity :=
  merge (fun staged old => match staged with Some entity => entity | None => old end)
        entries inner.

Definition overlay_data (ch : gmap string (gmap string (option Entity)))
  (d : gmap string (gmap string Entity)) : gmap string (gmap string Entity) :=
  merge (fun entries inner =>
           match entries with
           | Some entries => Some (overlayInner entries (default ∅ inner))
           | None => inner
           end)
        ch d.

(** The bucket of a value in the index of (entityType, field). *)
Definition bucket (entityType field value : string) (db : Database) : list string :=
  default [] (nested_lookup entityType field (indexes db)
                ≫= (fun index : gmap string (list string) => index !! value)).

(** What staging and reading may do to the store: the canonical map, the
    indexes and the file stay as they are, and every cache item is an old
    one or a record of the canonical map (Get fills the cache). *)
Record store_frame (db db' : Database) : Prop := {
  frame_data : data db' = data db;
  frame_indexes : indexes db' = indexes db;
  frame_disk : disk db' = disk db;
  frame_cache : forall k it,
    cache db' !! k = Some it ->
    cache db !! k = Some it \/
    exists entityType id,
      k = getCacheKey entityType id /\
      nested_lookup entityType id (data db) = Some (Object it)
}.

(** Callbacks that only stage and read: they do not commit. *)
Definition hooks_frame (reg : Registry) : Prop :=
  forall operation (h : Hook), h ∈ hooksFor reg operation ->
  forall tx db entityType entity, store_frame db (eff_db (h tx db entityType entity)).

Definition ups_frame (reg : Registry) : Prop :=
  forall m : Migration, m ∈ migrations reg ->
  forall tx db, store_frame db (eff_db (Up m tx db)).

(** A sequence of Set and Delete calls on one transaction; the caller goes
    on after a call that returns an error. *)
Inductive Op :=
| OpSet (entityType : string) (entity : Entity)
| OpDelete (now : Z) (entityType id : string).

Definition runOp (reg : Registry) (op : Op) (tx : Transaction) (db : Database)
  : Transaction * Database * error :=
  match op with
  | OpSet entityType entity => Set_ reg entityType entity tx db
  | OpDelete now entityType id => Delete now reg entityType id tx db
  end.

Fixpoint runOps (reg : Registry) (ops : list Op) (tx : Transaction) (db : Database)
  : Transaction * Database :=
  match ops with
  | [] => (tx, db)
  | op :: rest =>
      let '(tx', db', _) := runOp reg op tx db in
      runOps reg rest tx' db'
  end.

(** The migrations a run has to apply, in the words of the specification:
    those with currentVersion < version <= target. *)
Definition inRange (currentVersion targetVersion : Z) (m : Migration) : bool :=
  (currentVersion <? Version m)%Z && (Version m <=? targetVersion)%Z.

Definition pending (currentVersion targetVersion : Z) (ms : list Migration) : list Migration :=
  List.filter (inRange currentVersion targetVersion) ms.

(** Applying a list of migrations one after the other: the up-function,
    then the version marker, stopping at the first error. *)
Fixpoint applyMigrations (reg : Registry) (steps : list Migration)
  (tx : Transaction) (db : Database) : Transaction * Database * error :=
  match steps with
  | [] => (tx, db, None)
  | m :: rest =>
      let r := Up m tx db in
      match eff_err r with
      | Some err => (after tx r, eff_db r, Some err)
      | None =>
          match setCurrentVersion reg (Version m) (after tx r) (eff_db r) with
          | (tx2, db2, Some err) => (tx2, db2, Some err)
          | (tx2, db2, None) => applyMigrations reg rest tx2 db2
          end
      end
  end.

(** The version marker in the canonical map, and a cache that agrees with
    it. *)
Definition marker (db : Database) : option Entity :=
  nested_lookup "migration" "current_version" (data db).

Definition marker_coherent (db : Database) : Prop :=
  forall it, cache db !! getCacheKey "migration" "current_version" = Some it ->
             marker db = Some (Object it).

Definition hooks_keep_marker (reg : Registry) : Prop :=
  forall (h : Hook), h ∈ hooksFor reg "post-set" ->
  forall tx db entityType entity,
    nested_lookup "migration" "current_version" (eff_changes (h tx db entityType entity))
    = nested_lookup "migration" "current_version" (changes tx).

Fixpoint has_colon (s : string) : bool :=
  match s with
  | EmptyString => false
  | String c s' => if Ascii.eqb c ":"%char then true else has_colon s'
  end.

(** The entity type has at least one registered index. *)
Definition indexed (entityType : string) (db : Database) : Prop :=
  exists field index, nested_lookup entityType field (indexes db) = Some index.

(** How often an id occurs in a bucket, and what one staged entry adds to
    the bucket of [value]: one occurrence when it is a record whose field
    renders as [value]. *)
Definition occurrences (id : string) (ids : list string) : nat :=
  count_occ String.string_dec ids id.

Definition hit (entity : option Entity) (field value : string) : nat :=
  match entity with
  | Some e => if decide (ValueString (FieldByName e field) = value) then 1 else 0
  | None => 0
  end.

(** What getCurrentVersion makes of the version marker it finds. *)
Definition versionOf (entity : option Entity) : Z * error :=
  match entity with
  | None => (0%Z, None)
  | Some (MigrationVersion _ version) => (version, None)
  | Some _ => (0%Z, Some "invalid entity type for migration version")
  end.

(** ** Concrete stores, transactions and callbacks *)

(** Database.load on a file that parses to [rawData]: every object becomes
    a *GenericEntity; the cache starts empty. *)
Definition load (rawData : gmap string (gmap string (gmap string Value))) : Database :=
  let loaded :=
    (fun entities : gmap string (gmap string Value) =>
       map_imap (fun id fields => Some (GenericEntity id fields)) entities) <$> rawData in
  {| data := loaded; indexes := ∅; cache := ∅; disk := Stored loaded |}.

(** A second admissible order for [range]: the reverse of [range_list]. *)
Definition range_rev : forall A : Type, gmap string A -> list (string * A) :=
  fun A m => rev (map_to_list m).

Definition committedStore (r : Outcome (Transaction * Database * error)) : Database :=
  match r with
  | Returns (_, db, _) => db
  | Panics => NewDatabase
  end.

Definition committedTx (r : Outcome (Transaction * Database * error)) : Transaction :=
  match r with
  | Returns (tx, _, _) => tx
  | Panics => Transact false
  end.

Definition migratedStore (r : Outcome (Database * error)) : Database :=
  match r with
  | Returns (db, _) => db
  | Panics => NewDatabase
  end.

Definition hooksOnly (hs : gmap string (list Hook)) : Registry :=
  {| hooks := hs; migrations := [] |}.

Definition noCallbacks : Registry := hooksOnly ∅.

Definition effectOf (r : Transaction * Database * error) : Effect :=
  {| eff_changes := changes r.1.1; eff_committed := committed r.1.1;
     eff_db := r.1.2; eff_err := r.2 |}.

(** The tests' entities. *)
Definition alice : Entity :=
  StructEntity "TestEntity" "1" [("Name", VString "Alice"); ("Value", VInt 30)].
Definition bob : Entity :=
  StructEntity "TestEntity" "2" [("Name", VString "Bob"); ("Value", VInt 25)].
Definition alice_renamed : Entity :=
  StructEntity "TestEntity" "1" [("Name", VString "Bob"); ("Value", VInt 30)].

(** TestIndexing: an index on Name, then alice is set and committed. *)
Definition db_indexed : Database := AddIndex range_list "test" "Name" NewDatabase.
Definition tx_alice : Transaction :=
  (Set_ noCallbacks "test" alice (Transact false) db_indexed).1.1.
Definition db_alice : Database :=
  committedStore (Commit range_list 0 WriteOk tx_alice db_indexed).
Definition tx_alice_committed : Transaction :=
  committedTx (Commit range_list 0 WriteOk tx_alice db_indexed).

(** A second transaction sets record "1" again, with another Name. *)
Definition tx_rename : Transaction :=
  (Set_ noCallbacks "test" alice_renamed (Transact false) db_alice).1.1.
Definition db_renamed : Database :=
  committedStore (Commit range_list 1 WriteOk tx_rename db_alice).

(** A transaction that deletes record "1". *)
Definition tx_delete : Transaction :=
  (Delete 1 noCallbacks "test" "1" (Transact false) db_alice).1.1.

(** The same Commit of alice when os.WriteFile fails midway. *)
Definition db_failed : Database :=
  committedStore
    (Commit range_list 0 (WriteFails (InWrite false) "disk full") tx_alice db_indexed).

(** A store with no index. One transaction commits alice; a second one
    commits another record under the same id; then the first transaction is
    committed once more. *)
Definition tx_first : Transaction :=
  (Set_ noCallbacks "test" alice (Transact false) NewDatabase).1.1.
Definition db_first : Database :=
  committedStore (Commit range_list 0 WriteOk tx_first NewDatabase).
Definition tx_first_committed : Transaction :=
  committedTx (Commit range_list 0 WriteOk tx_first NewDatabase).
Definition tx_second : Transaction :=
  (Set_ noCallbacks "test" alice_renamed (Transact false) db_first).1.1.
Definition db_second : Database :=
  committedStore (Commit range_list 1 WriteOk tx_second db_first).
Definition db_recommitted : Database :=
  committedStore (Commit range_list 2 WriteOk tx_first_committed db_second).

(** Two records whose (type, id) pairs print to the same cache key "a:b:c". *)
Definition e_ab : Entity := StructEntity "TestEntity" "c" [("Name", VString "c of a:b")].
Definition e_a : Entity := StructEntity "TestEntity" "b:c" [("Name", VString "b:c of a")].
Definition tx_collide : Transaction :=
  (Set_ noCallbacks "a" e_a
     (Set_ noCallbacks "a:b" e_ab (Transact false) NewDatabase).1.1 NewDatabase).1.1.
Definition db_collide : Database :=
  committedStore (Commit range_list 0 WriteOk tx_collide NewDatabase).
Definition db_collide_rev : Database :=
  committedStore (Commit range_rev 0 WriteOk tx_collide NewDatabase).

(** TestQuerying: alice and bob, committed by one transaction. *)
Definition tx_two : Transaction :=
  (Set_ noCallbacks "test" bob
     (Set_ noCallbacks "test" alice (Transact false) NewDatabase).1.1 NewDatabase).1.1.
Definition db_two : Database :=
  committedStore (Commit range_list 0 WriteOk tx_two NewDatabase).

(** A store loaded from a file that holds record "1" of type "test". *)
Definition db_loaded : Database :=
  load {[ "test" := {[ "1" := {[ "Name" := VString "Alice" ]} ]} ]}.

(** A hook that reads a record and leaves the overlay alone. *)
Definition auditHook : Hook :=
  fun tx db _ _ =>
    let '(_, db') := Get 0 tx db "audit" "log" in
    {| eff_changes := changes tx; eff_committed := committed tx;
       eff_db := db'; eff_err := None |}.

Definition auditHooks : gmap string (list Hook) :=
  {[ "pre-delete" := [auditHook]; "post-set" := [auditHook] ]}.

(** An up-function that appends its name to the record order of type log:
    the record tells in which order the up-functions ran. *)
Definition logUp (hs : gmap string (list Hook)) (name : string) : MigrationFunc :=
  fun tx db =>
    let '((entity, _), db1) := Get 0 tx db "log" "order" in
    let seen :=
      match entity with
      | Some (StructEntity _ _ [(_, VString s)]) => s
      | _ => ""
      end in
    effectOf (Set_ (hooksOnly hs) "log"
                (StructEntity "Log" "order" [("Seen", VString (seen ++ name))]) tx db1).

Definition noDown : MigrationFunc :=
  fun tx db => {| eff_changes := changes tx; eff_committed := committed tx;
                  eff_db := db; eff_err := None |}.

Definition migration (hs : gmap string (list Hook)) (version : Z) (name : string) : Migration :=
  {| Version := version; Up := logUp hs name; Down := noDown |}.

(** Versions 1 and 2 registered in ascending order, with the audit hooks,
    and registered in the order 2, 1, with no hooks. *)
Definition reg_12 : Registry :=
  {| hooks := auditHooks;
     migrations := [migration auditHooks 1 "1"; migration auditHooks 2 "2"] |}.
Definition reg_21 : Registry :=
  {| hooks := ∅; migrations := [migration ∅ 2 "2"; migration ∅ 1 "1"] |}.

Definition db_12 : Database := migratedStore (Migrate range_list 0 WriteOk reg_12 2 NewDatabase).
Definition db_21 : Database := migratedStore (Migrate range_list 0 WriteOk reg_21 2 NewDatabase).
Definition db_21_again : Database := migratedStore (Migrate range_list 1 WriteOk reg_21 2 db_21).

(** An up-function that fails. *)
Definition failingUp : MigrationFunc :=
  fun tx db => {| eff_changes := changes tx; eff_committed := committed tx;
                  eff_db := db; eff_err := Some "up failed" |}.

Definition reg_failing : Registry :=
  {| hooks := auditHooks;
     migrations := [migration auditHooks 1 "1";
                    {| Version := 2; Up := failingUp; Down := noDown |}] |}.

(** ** Notions used by the further properties *)

(** The entity type has no registered index. *)
Definition unindexed (entityType : string) (db : Database) : Prop :=
  forall field, nested_lookup entityType field (indexes db) = None.

(** What a fresh reader is given for a staged entry once it is committed:
    the record, or "not found" for a tombstone. *)
Definition readBack (staged : option Entity) : option Entity * bool :=
  match staged with
  | Some e => (Some e, true)
  | None => (None, false)
  end.

(** The cache item Commit writes for a staged entry at time [now]. *)
Definition cachedItem (now : Z) (staged : option Entity) : option Item :=
  match staged with
  | Some e => Some {| Object := e; Expiration := (now + DefaultExpiration)%Z |}
  | None => None
  end.

(** Entity types with no index in [db] have none in [s] either. *)
Definition stays_unindexed (db s : Database) : Prop :=
  forall entityType, unindexed entityType db -> unindexed entityType s.

(** BatchSet and BatchDelete: Set or Delete in input order, stopping at the
    first error. *)
Fixpoint BatchSet (reg : Registry) (entityType : string) (entities : list Entity)
  (tx : Transaction) (db : Database) : Transaction * Database * error :=
  match entities with
  | [] => (tx, db, None)
  | entity :: rest =>
      match Set_ reg entityType entity tx db with
      | (tx1, db1, Some err) => (tx1, db1, Some err)
      | (tx1, db1, None) => BatchSet reg entityType rest tx1 db1
      end
  end.

Fixpoint BatchDelete (now : Z) (reg : Registry) (entityType : string) (ids : list string)
  (tx : Transaction) (db : Database) : Transaction * Database * error :=
  match ids with
  | [] => (tx, db, None)
  | id :: rest =>
      match Delete now reg entityType id tx db with
      | (tx1, db1, Some err) => (tx1, db1, Some err)
      | (tx1, db1, None) => BatchDelete now reg entityType rest tx1 db1
      end
  end.

(** No hook is registered for the operation. *)
Definition no_hooks (reg : Registry) (operation : string) : Prop :=
  hooksFor reg operation = [].

(** The hooks of an operation leave the staged entry of (entityType, id)
    as it is. *)
Definition hooks_keep_entry (reg : Registry) (operation entityType id : string) : Prop :=
  forall (h : Hook), h ∈ hooksFor reg operation ->
  forall tx db ty entity,
    nested_lookup entityType id (eff_changes (h tx db ty entity))
    = nested_lookup entityType id (changes tx).

(** Every record sits under its own id: in the canonical map, and in the
    overlay. *)
Definition well_keyed (d : gmap string (gmap string Entity)) : Prop :=
  forall entityType id e, nested_lookup entityType id d = Some e -> GetID e = id.

Definition well_keyed_overlay (ch : gmap string (gmap string (option Entity))) : Prop :=
  forall entityType id e, nested_lookup entityType id ch = Some (Some e) -> GetID e = id.

(** A list of records that holds exactly the records of a map, each once. *)
Definition listed (l : list Entity) (m : gmap string Entity) : Prop :=
  NoDup (GetID <$> l) /\ forall e, e ∈ l <-> m !! GetID e = Some e.

(** The rank of the Comparable value a record holds in a field, and the
    order OrderBy asks for on two records. *)
Definition rankOf (field : string) (e : Entity) : option Z :=
  match FieldByName e field with
  | Some (VComparable _ rank) => Some rank
  | _ => None
  end.

Definition ordered (field : string) (desc : bool) (a b : Entity) : Prop :=
  exists ra rb, rankOf field a = Some ra /\ rankOf field b = Some rb /\
                if desc then (rb <= ra)%Z else (ra <= rb)%Z.

(** Where and WhereIn, for the values a caller passes as literals of the
    kinds the model tells apart: a string, an int or a bool. (Interface
    equality on other dynamic types depends on the type and is left out.)
    [Interface()] panics on the zero Value of a missing field and the
    comparison of two interface values of different dynamic types is
    false. *)
Inductive Literal :=
| LString (s : string)
| LInt (n : Z)
| LBool (b : bool).

Definition literalValue (l : Literal) : Value :=
  match l with
  | LString s => VString s
  | LInt n => VInt n
  | LBool b => VBool b
  end.

(** fieldValue == value *)
Definition interfaceEq (fieldValue : Value) (value : Literal) : bool :=
  bool_decide (fieldValue = literalValue value).

Definition Where (field : string) (value : Literal) (q : Query) : Query :=
  {| entityType_ := entityType_ q;
     filters := (filters q ++
                 [fun e => match FieldByName e field with
                           | None => Panics
                           | Some fieldValue => Returns (interfaceEq fieldValue value)
                           end])%list;
     limit := limit q; offset := offset q; orderBy := orderBy q; orderDesc := orderDesc q |}.

(** for _, v := range values { if fieldValue == v { return true } }; return false *)
Fixpoint anyEqual (fieldValue : Value) (values : list Literal) : bool :=
  match values with
  | [] => false
  | v :: rest => if interfaceEq fieldValue v then true else anyEqual fieldValue rest
  end.

Definition WhereIn (field : string) (values : list Literal) (q : Query) : Query :=
  {| entityType_ := entityType_ q;
     filters := (filters q ++
                 [fun e => match FieldByName e field with
                           | None => Panics
                           | Some fieldValue => Returns (anyEqual fieldValue values)
                           end])%list;
     limit := limit q; offset := offset q; orderBy := orderBy q; orderDesc := orderDesc q |}.

(** ** Further concrete stores and queries *)

(** A transaction that deletes record "1" of the store of alice and bob,
    which has no index, and the store after its Commit. *)
Definition tx_tombstone : Transaction :=
  (Delete 1 noCallbacks "test" "1" (Transact false) db_two).1.1.
Definition db_deleted : Database :=
  committedStore (Commit range_list 1 WriteOk tx_tombstone db_two).

(** Three records whose Priority implements Comparable, set in the order
    3, 1, 2 of their ranks. *)
Definition task (id : string) (rank : Z) : Entity :=
  StructEntity "Task" id [("Priority", VComparable "Priority" rank)].
Definition tx_tasks : Transaction :=
  (BatchSet noCallbacks "task" [task "a" 3; task "b" 1; task "c" 2]
     (Transact false) NewDatabase).1.1.
Definition db_tasks : Database :=
  committedStore (Commit range_list 0 WriteOk tx_tasks NewDatabase).

(** A file that holds a version marker, as Commit wrote it. *)
Definition raw_marker : gmap string (gmap string (gmap string Value)) :=
  {[ "migration" :=
       {[ "current_version" :=
            {[ "id" := VString "current_version"; "version" := VOpaque "float64" ]} ]} ]}.

(** * Properties *)

(** ** Loops *)

Lemma forEach_app {A S : Type} (body : string -> A -> S -> Outcome S) l1 l2 s :
  forEach body (l1 ++ l2)%list s =
  match forEach body l1 s with
  | Returns s' => forEach body l2 s'
  | Panics => Panics
  end.
Proof.
  revert s. induction l1 as [|[k v] l1 IH]; intros s; simpl; [done|].
  destruct (body k v s); [apply IH | done].
Qed.

Lemma forEach_preserve {A S : Type} (P : S -> Prop) (body : string -> A -> S -> Outcome S)
  (l : list (string * A)) :
  (forall k v s s', (k, v) ∈ l -> P s -> body k v s = Returns s' -> P s') ->
  forall s s', P s -> forEach body l s = Returns s' -> P s'.
Proof.
  induction l as [|[k v] l IH]; intros Hbody s s' Hs Hrun; simpl in Hrun.
  - by inversion Hrun; subst.
  - destruct (body k v s) as [s1|] eqn:Hb; [|done].
    eapply IH; [|eapply Hbody; [|exact Hs|exact Hb]|exact Hrun].
    + intros k' v' t t' Hin. apply Hbody. by right.
    + by left.
Qed.

Lemma forEach_panics {A S : Type} (I : S -> Prop) (body : string -> A -> S -> Outcome S)
  (l : list (string * A)) k0 v0 :
  (forall k v s s', I s -> body k v s = Returns s' -> I s') ->
  (k0, v0) ∈ l ->
  (forall s, I s -> body k0 v0 s = Panics) ->
  forall s, I s -> forEach body l s = Panics.
Proof.
  intros Hstep Hin Hbad. induction l as [|[k v] l IH]; intros s Hs.
  - by apply elem_of_nil in Hin.
  - simpl. apply elem_of_cons in Hin as [Heq|Hin].
    + inversion Heq; subst. by rewrite Hbad.
    + destruct (body k v s) as [s1|] eqn:Hb; [|done].
      apply IH; [done|]. eapply Hstep; eauto.
Qed.

(** ** The index loop leaves the rest of the store alone *)

Lemma nested_lookup_appendIndex_is_Some ty field ty' f' v id ix :
  is_Some (nested_lookup ty field ix) ->
  is_Some (nested_lookup ty field (appendIndex ty' f' v id ix)).
Proof.
  unfold nested_lookup, appendIndex. intros [index H].
  rewrite lookup_alter. destruct (decide (ty' = ty)) as [->|Hne].
  - destruct (ix !! ty) as [fields|] eqn:Hf; simpl in *; [|done].
    rewrite lookup_alter. destruct (decide (f' = field)) as [->|]; rewrite H; simpl; eauto.
  - rewrite H. eauto.
Qed.

Section CommitFacts.

Variable range : forall A : Type, gmap string A -> list (string * A).
Hypothesis range_perm : forall (A : Type) (m : gmap string A), range A m ≡ₚ map_to_list m.

Lemma range_elem_of {A} (m : gmap string A) k v : (k, v) ∈ range A m <-> m !! k = Some v.
Proof. rewrite (range_perm A m). apply elem_of_map_to_list. Qed.

Lemma range_NoDup {A} (m : gmap string A) : NoDup (range A m).*1.
Proof. rewrite (range_perm A m). apply NoDup_fst_map_to_list. Qed.

Lemma range_to_map {A} (m : gmap string A) : list_to_map (range A m) = m.
Proof.
  rewrite <- (list_to_map_to_list m) at 2.
  apply list_to_map_proper; [apply range_NoDup | apply range_perm].
Qed.

Lemma range_empty {A} : range A ∅ = [].
Proof.
  apply Permutation_nil_r. rewrite (range_perm A ∅). by rewrite map_to_list_empty.
Qed.

Lemma updateIndexes_frame ty id e db db' :
  updateIndexes range ty id e db = Returns db' ->
  data db' = data db /\ cache db' = cache db /\ disk db' = disk db.
Proof.
  unfold updateIndexes.
  apply (forEach_preserve (fun s => data s = data db /\ cache s = cache db /\ disk s = disk db));
    [|done].
  intros field index s s' _ Hs Hb.
  destruct (fieldString e field); [|done]. by inversion Hb; subst.
Qed.

Lemma updateIndexes_indexed ty ty' id e db db' :
  indexed ty db -> updateIndexes range ty' id e db = Returns db' -> indexed ty db'.
Proof.
  unfold updateIndexes. apply forEach_preserve.
  intros field index s s' _ (f & ix & Hs) Hb.
  destruct (fieldString e field); [|done]. inversion Hb; subst.
  destruct (nested_lookup_appendIndex_is_Some ty f ty' field a id (indexes s)) as [ix' H];
    [by eauto|].
  by exists f, ix'.
Qed.

Lemma updateIndexes_tombstone ty id db :
  indexed ty db -> updateIndexes range ty id None db = Panics.
Proof.
  intros (field & index & H). unfold updateIndexes, nested_lookup in *.
  destruct (indexes db !! ty) as [fields|]; simpl in *; [|done].
  apply range_elem_of in H.
  destruct (range _ fields) as [|[f ix] l]; [by apply elem_of_nil in H|done].
Qed.

Lemma applyChange_indexed now ty ty' id e db db' :
  indexed ty db -> applyChange range now ty' id e db = Returns db' -> indexed ty db'.
Proof.
  unfold applyChange. intros Hix. apply updateIndexes_indexed. by destruct e.
Qed.

Lemma applyChange_tombstone now ty id db :
  indexed ty db -> applyChange range now ty id None db = Panics.
Proof. intros Hix. unfold applyChange. by apply updateIndexes_tombstone. Qed.

(** C5. For every write transaction whose overlay holds a tombstone for an
    id of an entity type with at least one registered index, Commit panics
    (whatever the order in which the maps are visited, the clock and the
    file system): the index loop reflects on the nil entity. *)
Theorem Commit_tombstone_indexed_panics now io tx db entityType id field index :
  readOnly tx = false ->
  nested_lookup entityType id (changes tx) = Some None ->
  nested_lookup entityType field (indexes db) = Some index ->
  Commit range now io tx db = Panics.
Proof.
  intros Hro Hstaged Hindex. unfold Commit. rewrite Hro.
  assert (Hix : indexed entityType db) by (by exists field, index).
  unfold nested_lookup in Hstaged.
  destruct (changes tx !! entityType) as [entries|] eqn:Hentries; simpl in Hstaged; [|done].
  unfold applyChanges.
  rewrite (forEach_panics (indexed entityType) _ _ entityType entries); [done| | | |done].
  - intros ty' entries' s s' Hs.
    apply (forEach_preserve (indexed entityType)); [|done].
    intros id' e' t t' _. apply applyChange_indexed.
  - by apply range_elem_of.
  - intros s Hs.
    apply (forEach_panics (indexed entityType) _ _ id None); [| | |done].
    + intros id' e' t t'. apply applyChange_indexed.
    + by apply range_elem_of.
    + intros t. apply applyChange_tombstone.
Qed.

(** ** The canonical map after the loops of Commit *)

Lemma overlayInner_empty inner : overlayInner ∅ inner = inner.
Proof.
  apply map_eq. intros j. unfold overlayInner.
  rewrite lookup_merge, lookup_empty. by destruct (inner !! j).
Qed.

Lemma lookup_overlayInner entries inner j :
  overlayInner entries inner !! j =
  match entries !! j with Some staged => staged | None => inner !! j end.
Proof.
  unfold overlayInner. rewrite lookup_merge.
  by destruct (entries !! j), (inner !! j).
Qed.

Lemma lookup_overlay_data ch d ty :
  overlay_data ch d !! ty =
  match ch !! ty with
  | Some entries => Some (overlayInner entries (default ∅ (d !! ty)))
  | None => d !! ty
  end.
Proof.
  unfold overlay_data. rewrite lookup_merge.
  by destruct (ch !! ty), (d !! ty).
Qed.

Lemma applyChange_data now ty id e db db' :
  applyChange range now ty id e db = Returns db' ->
  data db' = match e with
             | None => nested_delete ty id (data db)
             | Some x => nested_insert ty id x (data db)
             end.
Proof.
  unfold applyChange. intros H. apply updateIndexes_frame in H as (-> & _ & _).
  by destruct e.
Qed.

Lemma applyChange_disk now ty id e db db' :
  applyChange range now ty id e db = Returns db' -> disk db' = disk db.
Proof.
  unfold applyChange. intros H. apply updateIndexes_frame in H as (_ & _ & ->).
  by destruct e.
Qed.

Lemma inner_loop_data now ty (l : list (string * option Entity)) :
  NoDup l.*1 ->
  forall db db' inner,
    data db !! ty = Some inner ->
    forEach (applyChange range now ty) l db = Returns db' ->
    data db' = <[ty := overlayInner (list_to_map l) inner]> (data db).
Proof.
  induction l as [|[id e] l IH]; intros Hnd db db' inner Hty Hrun; simpl in *.
  - inversion Hrun; subst. rewrite overlayInner_empty. by rewrite insert_id.
  - apply NoDup_cons in Hnd as [Hfresh Hnd].
    destruct (applyChange range now ty id e db) as [db1|] eqn:Hstep; [|done].
    apply applyChange_data in Hstep.
    assert (Hty1 : data db1 !! ty =
                   Some (match e with None => delete id inner | Some x => <[id:=x]> inner end)).
    { rewrite Hstep. destruct e; unfold nested_insert, nested_delete;
        by rewrite lookup_alter_eq, Hty. }
    rewrite (IH Hnd db1 db' _ Hty1 Hrun).
    apply not_elem_of_list_to_map in Hfresh.
    apply map_eq. intros t. rewrite !lookup_insert.
    destruct (decide (ty = t)) as [->|Hne].
    + f_equal. apply map_eq. intros j. rewrite !lookup_overlayInner.
      rewrite lookup_insert. destruct (decide (id = j)) as [->|Hj].
      * rewrite Hfresh. destruct e; [by rewrite lookup_insert_eq | by rewrite lookup_delete_eq].
      * destruct (list_to_map l !! j); [done|].
        destruct e; [by rewrite lookup_insert_ne | by rewrite lookup_delete_ne].
    + rewrite Hstep. destruct e; unfold nested_insert, nested_delete;
        by rewrite lookup_alter_ne.
Qed.

Lemma outer_loop_data now (L : list (string * gmap string (option Entity))) :
  NoDup L.*1 ->
  forall db db',
    forEach (fun ty entries db =>
               forEach (applyChange range now ty) (range _ entries)
                       (set_data (ensure ty) db)) L db = Returns db' ->
    data db' = overlay_data (list_to_map L) (data db).
Proof.
  induction L as [|[ty entries] L IH]; intros Hnd db db' Hrun; simpl in *.
  - inversion Hrun; subst. apply map_eq. intros t.
    by rewrite lookup_overlay_data, lookup_empty.
  - apply NoDup_cons in Hnd as [Hfresh Hnd].
    destruct (forEach (applyChange range now ty) (range _ entries) (set_data (ensure ty) db))
      as [db1|] eqn:Hinner; [|done].
    eapply (inner_loop_data now ty _ (range_NoDup entries) _ _
              (default ∅ (data db !! ty))) in Hinner.
    2:{ simpl. unfold ensure. destruct (data db !! ty) eqn:E; simpl;
          [done | by rewrite lookup_insert_eq]. }
    rewrite range_to_map in Hinner. simpl in Hinner.
    rewrite (IH Hnd db1 db' Hrun).
    apply not_elem_of_list_to_map in Hfresh.
    apply map_eq. intros t. rewrite !lookup_overlay_data.
    rewrite lookup_insert. destruct (decide (ty = t)) as [->|Hne].
    + rewrite Hfresh, Hinner. by rewrite lookup_insert_eq.
    + rewrite Hinner. rewrite lookup_insert_ne by done.
      unfold ensure. destruct (data db !! ty) eqn:E; [done|].
      by rewrite lookup_insert_ne.
Qed.

(** The canonical map a Commit leaves does not depend on the order in which
    the overlay was visited. *)
Lemma applyChanges_data now ch db db' :
  applyChanges range now ch db = Returns db' ->
  data db' = overlay_data ch (data db).
Proof.
  unfold applyChanges. intros H.
  apply outer_loop_data in H; [|apply range_NoDup].
  by rewrite range_to_map in H.
Qed.

Lemma applyChanges_disk now ch db db' :
  applyChanges range now ch db = Returns db' -> disk db' = disk db.
Proof.
  unfold applyChanges.
  apply (forEach_preserve (fun s => disk s = disk db)); [|done].
  intros ty entries s s' _ Hs.
  apply (forEach_preserve (fun s => disk s = disk db)); [|done].
  intros id e t t' _ Ht Hstep. apply applyChange_disk in Hstep. congruence.
Qed.

Lemma nested_lookup_overlay_data ch d ty id staged :
  nested_lookup ty id ch = Some staged ->
  nested_lookup ty id (overlay_data ch d) = staged.
Proof.
  unfold nested_lookup. rewrite lookup_overlay_data.
  destruct (ch !! ty) as [entries|]; simpl; [|done].
  intros H. by rewrite lookup_overlayInner, H.
Qed.

Lemma overlay_data_idemp ch d : overlay_data ch (overlay_data ch d) = overlay_data ch d.
Proof.
  apply map_eq. intros ty. rewrite !lookup_overlay_data.
  destruct (ch !! ty) as [entries|]; [|done]. simpl. f_equal.
  apply map_eq. intros j. rewrite !lookup_overlayInner.
  by destruct (entries !! j).
Qed.

(** ** The index buckets after the loops of Commit *)

Lemma bucket_appendIndex ty field v ty' f' v' id' db index :
  nested_lookup ty field (indexes db) = Some index ->
  bucket ty field v (set_indexes (appendIndex ty' f' v' id') db) =
  if decide (ty' = ty /\ f' = field /\ v' = v)
  then (bucket ty field v db ++ [id'])%list
  else bucket ty field v db.
Proof.
  unfold bucket, nested_lookup, appendIndex. simpl. intros H.
  destruct (indexes db !! ty) as [fields|] eqn:Hf; simpl in H; [|done].
  rewrite lookup_alter. destruct (decide (ty' = ty)) as [->|Hty].
  - rewrite Hf. simpl. rewrite lookup_alter.
    destruct (decide (f' = field)) as [->|Hfield].
    + rewrite H. simpl. rewrite lookup_insert.
      destruct (decide (v' = v)) as [->|Hv]; simpl.
      * by rewrite decide_True.
      * rewrite decide_False by (intros ?; intuition congruence). done.
    + rewrite H. simpl. rewrite decide_False by (intros ?; intuition congruence). done.
  - rewrite Hf. simpl. rewrite H. simpl. rewrite decide_False by (intros ?; intuition congruence). done.
Qed.

Lemma occurrences_snoc id ids id' :
  occurrences id (ids ++ [id']) = occurrences id ids + (if decide (id' = id) then 1 else 0).
Proof.
  unfold occurrences. rewrite count_occ_app. simpl.
  destruct (string_dec id' id), (decide (id' = id)); done.
Qed.

Lemma fields_loop_count ty field v id ty' id' e'
  (lf : list (string * gmap string (list string))) :
  NoDup lf.*1 ->
  forall db db',
    is_Some (nested_lookup ty field (indexes db)) ->
    forEach (fun f (_ : gmap string (list string)) db =>
               match fieldString e' f with
               | Panics => Panics
               | Returns value => Returns (set_indexes (appendIndex ty' f value id') db)
               end) lf db = Returns db' ->
    is_Some (nested_lookup ty field (indexes db')) /\
    occurrences id (bucket ty field v db') =
    occurrences id (bucket ty field v db) +
    (if decide (ty' = ty /\ id' = id /\ field ∈ lf.*1) then hit e' field v else 0).
Proof.
  induction lf as [|[f ix] lf IH]; intros Hnd db db' Hix Hrun; simpl in *.
  - inversion Hrun; subst. split; [done|].
    rewrite decide_False; [lia|]. intros (_ & _ & H). by apply elem_of_nil in H.
  - apply NoDup_cons in Hnd as [Hfresh Hnd].
    destruct e' as [e|]; simpl in Hrun; [|done].
    set (db1 := set_indexes (appendIndex ty' f (ValueString (FieldByName e f)) id') db) in *.
    assert (Hix1 : is_Some (nested_lookup ty field (indexes db1)))
      by (by apply nested_lookup_appendIndex_is_Some).
    destruct (IH Hnd db1 db' Hix1 Hrun) as [Hix' Hcount]. split; [done|].
    rewrite Hcount. destruct Hix as [index Hix]. unfold db1.
    rewrite (bucket_appendIndex _ _ _ _ _ _ _ _ _ Hix).
    destruct (decide (ty' = ty /\ f = field /\ ValueString (FieldByName e f) = v))
      as [(-> & -> & Hv)|Hno].
    + rewrite occurrences_snoc. destruct (decide (id' = id)) as [->|Hid].
      * rewrite decide_False by (intros ?; intuition congruence).
        rewrite decide_True by (split_and!; [done|done|by left]).
        simpl. rewrite decide_True by done. lia.
      * rewrite !decide_False by (intros ?; intuition congruence). lia.
    + destruct (decide (ty' = ty /\ id' = id /\ field ∈ lf.*1)) as [(-> & -> & Hin)|Hn1].
      * rewrite decide_True by (split_and!; [done|done|by right]). lia.
      * destruct (decide (ty' = ty /\ id' = id /\ f = field)) as [(-> & -> & ->)|Hn3].
        -- rewrite decide_True by (split_and!; [done|done|by left]).
           simpl. rewrite decide_False by (intros ?; apply Hno; done). lia.
        -- rewrite decide_False; [lia|]. intros (? & ? & Hin).
           apply elem_of_cons in Hin as [->|Hin]; [by apply Hn3|by apply Hn1].
Qed.

Lemma applyChange_count now ty field v id ty' id' e' db db' :
  is_Some (nested_lookup ty field (indexes db)) ->
  applyChange range now ty' id' e' db = Returns db' ->
  is_Some (nested_lookup ty field (indexes db')) /\
  occurrences id (bucket ty field v db') =
  occurrences id (bucket ty field v db) +
  (if decide (ty' = ty /\ id' = id) then hit e' field v else 0).
Proof.
  unfold applyChange, updateIndexes. intros Hix Hrun.
  eapply (fields_loop_count ty field v id) in Hrun; [|apply range_NoDup|by destruct e'].
  destruct Hrun as [Hix' Hcount]. split; [done|]. rewrite Hcount.
  assert (Hsame : bucket ty field v
            match e' with
            | Some e => set_cache (fun c => cache_Set now c (getCacheKey ty' id') e)
                          (set_data (nested_insert ty' id' e) db)
            | None => set_cache (fun c => cache_Delete c (getCacheKey ty' id'))
                        (set_data (nested_delete ty' id') db)
            end = bucket ty field v db) by (by destruct e').
  rewrite Hsame. f_equal.
  destruct (decide (ty' = ty /\ id' = id)) as [[-> ->]|Hno].
  - rewrite decide_True; [done|]. split_and!; [done|done|].
    destruct Hix as [index Hix]. unfold nested_lookup in Hix.
    assert (Hi : indexes match e' with
            | Some e => set_cache (fun c => cache_Set now c (getCacheKey ty id) e)
                          (set_data (nested_insert ty id e) db)
            | None => set_cache (fun c => cache_Delete c (getCacheKey ty id))
                        (set_data (nested_delete ty id) db)
            end = indexes db) by (by destruct e').
    rewrite Hi. destruct (indexes db !! ty) as [fields|]; simpl in *; [|done].
    apply list_elem_of_fmap. exists (field, index). split; [done|].
    by apply range_elem_of.
  - rewrite decide_False; [done|]. intros (? & ? & ?). by apply Hno.
Qed.

Lemma inner_loop_count now ty field v id ty' (l : list (string * option Entity)) :
  NoDup l.*1 ->
  forall db db',
    is_Some (nested_lookup ty field (indexes db)) ->
    forEach (applyChange range now ty') l db = Returns db' ->
    is_Some (nested_lookup ty field (indexes db')) /\
    occurrences id (bucket ty field v db') =
    occurrences id (bucket ty field v db) +
    (if decide (ty' = ty) then hit (default None ((list_to_map l : gmap string (option Entity)) !! id)) field v else 0).
Proof.
  induction l as [|[id' e'] l IH]; intros Hnd db db' Hix Hrun; simpl in *.
  - inversion Hrun; subst. split; [done|]. rewrite lookup_empty. simpl.
    destruct (decide (ty' = ty)); lia.
  - apply NoDup_cons in Hnd as [Hfresh Hnd].
    destruct (applyChange range now ty' id' e' db) as [db1|] eqn:Hstep; [|done].
    apply (applyChange_count now ty field v id) in Hstep as [Hix1 Hc1]; [|done].
    destruct (IH Hnd db1 db' Hix1 Hrun) as [Hix' Hc]. split; [done|].
    rewrite Hc, Hc1. apply not_elem_of_list_to_map in Hfresh.
    rewrite lookup_insert.
    destruct (decide (ty' = ty)) as [->|Hty].
    + destruct (decide (id' = id)) as [->|Hid].
      * rewrite decide_True by done. rewrite Hfresh. simpl. lia.
      * rewrite decide_False by (intros ?; intuition congruence). lia.
    + rewrite decide_False by (intros ?; intuition congruence). lia.
Qed.

Lemma outer_loop_count now ty field v id (L : list (string * gmap string (option Entity))) :
  NoDup L.*1 ->
  forall db db',
    is_Some (nested_lookup ty field (indexes db)) ->
    forEach (fun ty' entries db =>
               forEach (applyChange range now ty') (range _ entries)
                       (set_data (ensure ty') db)) L db = Returns db' ->
    is_Some (nested_lookup ty field (indexes db')) /\
    occurrences id (bucket ty field v db') =
    occurrences id (bucket ty field v db) +
    hit (default None (nested_lookup ty id (list_to_map L))) field v.
Proof.
  induction L as [|[ty' entries] L IH]; intros Hnd db db' Hix Hrun; simpl in *.
  - inversion Hrun; subst. split; [done|]. unfold nested_lookup.
    rewrite lookup_empty. simpl. lia.
  - apply NoDup_cons in Hnd as [Hfresh Hnd].
    destruct (forEach (applyChange range now ty') (range _ entries)
                (set_data (ensure ty') db)) as [db1|] eqn:Hinner; [|done].
    apply (inner_loop_count now ty field v id) in Hinner as [Hix1 Hc1];
      [|apply range_NoDup|done].
    destruct (IH Hnd db1 db' Hix1 Hrun) as [Hix' Hc]. split; [done|].
    rewrite Hc, Hc1. rewrite range_to_map.
    apply not_elem_of_list_to_map in Hfresh. unfold nested_lookup in *.
    rewrite lookup_insert.
    assert (Hb : bucket ty field v (set_data (ensure ty') db) = bucket ty field v db) by done.
    rewrite Hb.
    destruct (decide (ty' = ty)) as [->|Hty].
    + rewrite Hfresh. simpl. lia.
    + lia.
Qed.

(** Every staged record adds its id once to the bucket of its value, in
    each index of its type, and nothing else changes how often an id
    occurs in a bucket. *)
Lemma applyChanges_count now ch db db' ty field v id :
  is_Some (nested_lookup ty field (indexes db)) ->
  applyChanges range now ch db = Returns db' ->
  occurrences id (bucket ty field v db') =
  occurrences id (bucket ty field v db) + hit (default None (nested_lookup ty id ch)) field v.
Proof.
  unfold applyChanges. intros Hix H.
  apply (outer_loop_count now ty field v id) in H as [_ H]; [|apply range_NoDup|done].
  by rewrite range_to_map in H.
Qed.

(** ** Commit and the file *)

Lemma Commit_write_inv now io tx db tx' db' e :
  readOnly tx = false ->
  Commit range now io tx db = Returns (tx', db', e) ->
  exists db1,
    applyChanges range now (changes tx) db = Returns db1 /\
    tx' = {| readOnly := readOnly tx; changes := changes tx; committed := true |} /\
    (db', e) = save io db1.
Proof.
  unfold Commit. intros -> H.
  destruct (applyChanges range now (changes tx) db) as [db1|]; [|done].
  exists db1. destruct (save io db1) as [db2 err]. by inversion H; subst.
Qed.

(** save changes nothing in memory, whatever its outcome. *)
Lemma save_memory io db :
  data (save io db).1 = data db /\
  indexes (save io db).1 = indexes db /\
  cache (save io db).1 = cache db.
Proof. by destruct io as [|[] ?]. Qed.

Lemma save_error io db :
  (save io db).2 = match io with WriteOk => None | WriteFails _ err => Some err end.
Proof. by destruct io as [|[] ?]. Qed.

(** C3 (amended). When serialization or the file write fails during the
    Commit of a write transaction, whichever step of save fails, Commit
    returns that error, but the transaction is marked committed and the
    store in memory holds the changes: the canonical map is the one the
    overlay dictates, every staged entry is read back from it, and
    canonical map, indexes and cache are the ones a successful write
    leaves. *)
Theorem Commit_write_failure now step err tx db tx' db' e :
  readOnly tx = false ->
  Commit range now (WriteFails step err) tx db = Returns (tx', db', e) ->
  e = Some err /\
  committed tx' = true /\
  data db' = overlay_data (changes tx) (data db) /\
  (forall entityType id staged,
     nested_lookup entityType id (changes tx) = Some staged ->
     nested_lookup entityType id (data db') = staged) /\
  exists written,
    Commit range now WriteOk tx db = Returns (tx', written, None) /\
    data db' = data written /\
    indexes db' = indexes written /\
    cache db' = cache written.
Proof.
  intros Hro H.
  destruct (Commit_write_inv _ _ _ _ _ _ _ Hro H) as (db1 & Happly & -> & Hsave).
  pose proof (applyChanges_data _ _ _ _ Happly) as Hdata.
  pose proof (save_memory (WriteFails step err) db1) as (Hd & Hi & Hc).
  pose proof (save_error (WriteFails step err) db1) as He.
  rewrite <- Hsave in Hd, Hi, Hc, He. simpl in Hd, Hi, Hc, He.
  split_and!; [done|done|congruence| |].
  - intros ty id staged Hst. rewrite Hd, Hdata. by apply nested_lookup_overlay_data.
  - exists (save WriteOk db1).1. split_and!; [|done|done|done].
    unfold Commit. by rewrite Hro, Happly.
Qed.

(** C4 (amended). Commit does not look at the committed flag: a Commit on
    an already committed write transaction is accepted and applies the
    overlay once more. Its error is that of save alone; the canonical map
    is left as the overlay dictates: every staged entry is read back from
    it, whatever another commit had put there in between, and the map does
    not change when it already was as the overlay dictates (no other commit
    in between); and when save succeeds the file is written again, with
    that map. *)
Theorem Commit_again now io tx db tx' db' e :
  readOnly tx = false ->
  committed tx = true ->
  Commit range now io tx db = Returns (tx', db', e) ->
  e = match io with WriteOk => None | WriteFails _ err => Some err end /\
  data db' = overlay_data (changes tx) (data db) /\
  (forall entityType id staged,
     nested_lookup entityType id (changes tx) = Some staged ->
     nested_lookup entityType id (data db') = staged) /\
  (forall d0, data db = overlay_data (changes tx) d0 -> data db' = data db) /\
  (io = WriteOk -> disk db' = Stored (data db')).
Proof.
  intros Hro _ H.
  destruct (Commit_write_inv _ _ _ _ _ _ _ Hro H) as (db1 & Happly & -> & Hsave).
  pose proof (applyChanges_data _ _ _ _ Happly) as Hdata.
  pose proof (save_memory io db1) as (Hd & _ & _).
  pose proof (save_error io db1) as He.
  rewrite <- Hsave in Hd, He. simpl in Hd, He.
  split_and!.
  - done.
  - by rewrite Hd.
  - intros ty id staged Hst. rewrite Hd, Hdata. by apply nested_lookup_overlay_data.
  - intros d0 Hd0. rewrite Hd, Hdata, Hd0. apply overlay_data_idemp.
  - intros ->. by inversion Hsave.
Qed.

End CommitFacts.

(** ** Staging and reading leave the store alone *)

Lemma store_frame_refl db : store_frame db db.
Proof. split; auto. Qed.

Lemma store_frame_trans db1 db2 db3 :
  store_frame db1 db2 -> store_frame db2 db3 -> store_frame db1 db3.
Proof.
  intros [Hd1 Hi1 Hf1 Hc1] [Hd2 Hi2 Hf2 Hc2]. split; try congruence.
  intros k it H. destruct (Hc2 k it H) as [Hold|(ty & id & -> & Hfed)].
  - by apply Hc1.
  - right. exists ty, id. split; [done|]. by rewrite <- Hd1.
Qed.

Lemma Get_frame now tx db entityType id r db' :
  Get now tx db entityType id = (r, db') -> store_frame db db'.
Proof.
  unfold Get. intros H.
  destruct (changes tx !! entityType ≫= _);
    [inversion H; subst; apply store_frame_refl|].
  destruct (cache_Get now (cache db) (getCacheKey entityType id));
    [inversion H; subst; apply store_frame_refl|].
  destruct (data db !! entityType ≫= _) as [e|] eqn:He;
    inversion H; subst; [|apply store_frame_refl].
  split; simpl; auto. unfold cache_Set. intros k it Hk.
  destruct (decide (getCacheKey entityType id = k)) as [<-|Hne].
  - rewrite lookup_insert_eq in Hk. inversion Hk; subst. right. by exists entityType, id.
  - rewrite lookup_insert_ne in Hk by done. by left.
Qed.

Lemma runHooks_frame hs entityType entity tx db tx' db' e :
  (forall (h : Hook), h ∈ hs ->
     forall tx db entityType entity, store_frame db (eff_db (h tx db entityType entity))) ->
  runHooks hs entityType entity tx db = (tx', db', e) ->
  store_frame db db'.
Proof.
  revert tx db. induction hs as [|h hs IH]; intros tx db Hhs H; simpl in H.
  - inversion H; subst. apply store_frame_refl.
  - assert (Hh : store_frame db (eff_db (h tx db entityType entity)))
      by (apply Hhs; by left).
    destruct (eff_err (h tx db entityType entity)).
    + by inversion H; subst.
    + eapply store_frame_trans; [exact Hh|].
      eapply IH; [|exact H]. intros h' Hin. apply Hhs. by right.
Qed.

Lemma Set_frame reg entityType entity tx db tx' db' e :
  hooks_frame reg ->
  Set_ reg entityType entity tx db = (tx', db', e) ->
  store_frame db db'.
Proof.
  intros Hreg. unfold Set_.
  destruct (readOnly tx); [intros H; inversion H; subst; apply store_frame_refl|].
  destruct (runHooks (hooksFor reg "pre-set") _ _ tx db) as [[tx1 db1] [err|]] eqn:Hpre;
    intros H.
  - inversion H; subst. eapply runHooks_frame; [|exact Hpre]. apply Hreg.
  - eapply store_frame_trans.
    + eapply runHooks_frame; [|exact Hpre]. apply Hreg.
    + eapply runHooks_frame; [|exact H]. apply Hreg.
Qed.

Lemma Delete_frame now reg entityType id tx db tx' db' e :
  hooks_frame reg ->
  Delete now reg entityType id tx db = (tx', db', e) ->
  store_frame db db'.
Proof.
  intros Hreg. unfold Delete.
  destruct (readOnly tx); [intros H; inversion H; subst; apply store_frame_refl|].
  destruct (Get now tx db entityType id) as [[entity exists_] db0] eqn:HGet.
  apply Get_frame in HGet. destruct exists_.
  - destruct (runHooks (hooksFor reg "pre-delete") _ _ tx db0) as [[tx1 db1] [err|]] eqn:Hpre;
      intros H.
    + inversion H; subst. eapply store_frame_trans; [exact HGet|].
      eapply runHooks_frame; [|exact Hpre]. apply Hreg.
    + eapply store_frame_trans; [exact HGet|]. eapply store_frame_trans.
      * eapply runHooks_frame; [|exact Hpre]. apply Hreg.
      * eapply runHooks_frame; [|exact H]. apply Hreg.
  - intros H. by inversion H; subst.
Qed.

Lemma runOps_frame reg ops tx db tx' db' :
  hooks_frame reg ->
  runOps reg ops tx db = (tx', db') ->
  store_frame db db'.
Proof.
  intros Hreg. revert tx db. induction ops as [|op ops IH]; intros tx db H; simpl in H.
  - inversion H; subst. apply store_frame_refl.
  - destruct (runOp reg op tx db) as [[tx1 db1] e] eqn:Hop.
    eapply store_frame_trans; [|eapply IH; exact H].
    destruct op; simpl in Hop; [by eapply Set_frame | by eapply Delete_frame].
Qed.

(** C10 (amended). For every sequence of Set and Delete calls staged in a
    transaction and followed by Rollback, with hooks that only stage and
    read, the overlay is discarded and the canonical map, the indexes and
    the file are as before the sequence. The cache is not unchanged: Delete
    reads the record with Get, which fills the cache, so the cache may hold
    new or refreshed items, each of them a record of the canonical map. *)
Theorem Rollback_frame reg ops tx db tx' db' :
  hooks_frame reg ->
  runOps reg ops tx db = (tx', db') ->
  changes (Rollback tx') = ∅ /\
  data db' = data db /\
  indexes db' = indexes db /\
  disk db' = disk db /\
  (forall k it,
     cache db' !! k = Some it ->
     cache db !! k = Some it \/
     exists entityType id,
       k = getCacheKey entityType id /\
       nested_lookup entityType id (data db) = Some (Object it)).
Proof.
  intros Hreg H. apply runOps_frame in H as [Hd Hi Hf Hc]; [|done].
  by split_and!.
Qed.

(** ** The migration loop *)

Lemma migrateLoop_pending reg currentVersion targetVersion ms tx db :
  migrateLoop reg currentVersion targetVersion ms tx db =
  applyMigrations reg (pending currentVersion targetVersion ms) tx db.
Proof.
  revert tx db. induction ms as [|m ms IH]; intros tx db; simpl; [done|].
  unfold inRange at 1.
  destruct ((currentVersion <? Version m)%Z && (Version m <=? targetVersion)%Z); simpl.
  - destruct (eff_err (Up m tx db)); [done|].
    destruct (setCurrentVersion reg (Version m) _ _) as [[tx2 db2] [err|]]; [done|apply IH].
  - apply IH.
Qed.

Lemma elem_of_pending currentVersion targetVersion ms (m : Migration) :
  m ∈ pending currentVersion targetVersion ms <->
  m ∈ ms /\ (currentVersion < Version m <= targetVersion)%Z.
Proof.
  unfold pending. rewrite !list_elem_of_In, filter_In. unfold inRange.
  rewrite andb_true_iff, Z.ltb_lt, Z.leb_le. tauto.
Qed.

Lemma pending_sorted currentVersion targetVersion ms :
  StronglySorted Z.le (map Version ms) ->
  StronglySorted Z.le (map Version (pending currentVersion targetVersion ms)).
Proof.
  induction ms as [|m ms IH]; simpl; intros H; [constructor|].
  apply StronglySorted_inv in H as [Hms Hall].
  destruct (inRange currentVersion targetVersion m); simpl; [|by apply IH].
  constructor; [by apply IH|].
  rewrite List.Forall_forall in *. intros v Hv. apply Hall.
  apply in_map_iff in Hv as (m' & <- & Hm'). apply in_map.
  unfold pending in Hm'. by apply filter_In in Hm' as [? _].
Qed.

Lemma applyMigrations_frame reg steps tx db tx' db' e :
  hooks_frame reg ->
  (forall m : Migration, m ∈ steps -> forall tx db, store_frame db (eff_db (Up m tx db))) ->
  applyMigrations reg steps tx db = (tx', db', e) ->
  store_frame db db'.
Proof.
  intros Hreg. revert tx db. induction steps as [|m steps IH]; intros tx db Hups H; simpl in H.
  - inversion H; subst. apply store_frame_refl.
  - assert (Hup : store_frame db (eff_db (Up m tx db))) by (apply Hups; by left).
    destruct (eff_err (Up m tx db)); [by inversion H; subst|].
    destruct (setCurrentVersion reg (Version m) _ _) as [[tx2 db2] err] eqn:Hset.
    apply Set_frame in Hset; [|done].
    pose proof (store_frame_trans _ _ _ Hup Hset) as H2.
    destruct err; [by inversion H; subst|].
    eapply store_frame_trans; [exact H2|].
    eapply IH; [|exact H]. intros m' Hin. apply Hups. by right.
Qed.

Lemma getCurrentVersion_frame now tx db r db' :
  getCurrentVersion now tx db = (r, db') -> store_frame db db'.
Proof.
  unfold getCurrentVersion.
  destruct (Get now tx db "migration" "current_version") as [[entity ok] db0] eqn:HGet.
  apply Get_frame in HGet. intros H.
  destruct ok; simpl in H; [|by inversion H; subst].
  destruct entity as [[]|]; by inversion H; subst.
Qed.

Lemma store_frame_marker db db' : store_frame db db' -> marker db' = marker db.
Proof. intros [Hd _ _ _]. unfold marker. by rewrite Hd. Qed.

(** C7 (amended). Migrate(target) applies exactly the registered migrations
    whose version v satisfies currentVersion < v <= target, one after the
    other in the order in which they were registered, which is ascending
    version order when they were registered in ascending order. If an
    up-function or a version-marker update fails, Migrate returns that
    error without calling Commit: with callbacks that only stage and read,
    the canonical map, the indexes and the file are as before, and so is
    the version marker. Otherwise Migrate ends with the Commit of the
    transaction. *)
Theorem Migrate_applies_pending
  (range : forall A : Type, gmap string A -> list (string * A))
  now io reg targetVersion db currentVersion db0 :
  hooks_frame reg ->
  ups_frame reg ->
  getCurrentVersion now (Transact false) db = ((currentVersion, None), db0) ->
  migrateLoop reg currentVersion targetVersion (migrations reg) (Transact false) db0 =
    applyMigrations reg (pending currentVersion targetVersion (migrations reg))
      (Transact false) db0 /\
  (forall m : Migration,
     m ∈ pending currentVersion targetVersion (migrations reg) <->
     m ∈ migrations reg /\ (currentVersion < Version m <= targetVersion)%Z) /\
  (StronglySorted Z.le (map Version (migrations reg)) ->
   StronglySorted Z.le
     (map Version (pending currentVersion targetVersion (migrations reg)))) /\
  (forall tx1 db1 err,
     applyMigrations reg (pending currentVersion targetVersion (migrations reg))
       (Transact false) db0 = (tx1, db1, Some err) ->
     Migrate range now io reg targetVersion db = Returns (db1, Some err) /\
     data db1 = data db /\ indexes db1 = indexes db /\ disk db1 = disk db /\
     marker db1 = marker db) /\
  (forall tx1 db1,
     applyMigrations reg (pending currentVersion targetVersion (migrations reg))
       (Transact false) db0 = (tx1, db1, None) ->
     Migrate range now io reg targetVersion db =
     match Commit range now io tx1 db1 with
     | Panics => Panics
     | Returns (_, db2, e) => Returns (db2, e)
     end).
Proof.
  intros Hreg Hups Hcv. split_and!.
  - apply migrateLoop_pending.
  - intros m. apply elem_of_pending.
  - apply pending_sorted.
  - intros tx1 db1 err Hrun.
    assert (Hframe : store_frame db db1).
    { eapply store_frame_trans; [by eapply getCurrentVersion_frame|].
      eapply applyMigrations_frame; [done| |exact Hrun].
      intros m Hm. apply Hups. by apply elem_of_pending in Hm as [? _]. }
    split_and!; try apply Hframe; [|by apply store_frame_marker].
    unfold Migrate. by rewrite Hcv, migrateLoop_pending, Hrun.
  - intros tx1 db1 Hrun. unfold Migrate. by rewrite Hcv, migrateLoop_pending, Hrun.
Qed.

(** ** The cache key of the version marker *)

Lemma has_colon_key ty id : has_colon (ty ++ String ":" id) = true.
Proof. induction ty as [|c ty IH]; simpl; [done|]. by destruct (Ascii.eqb c ":"). Qed.

Lemma key_split s :
  has_colon s = false ->
  forall rest ty id,
    has_colon rest = false ->
    ty ++ String ":" id = s ++ String ":" rest -> ty = s /\ id = rest.
Proof.
  induction s as [|a s IH]; intros Hs rest ty id Hrest Heq.
  - destruct ty as [|c ty]; simpl in Heq.
    + by inversion Heq.
    + inversion Heq as [[Hc Ht]]. rewrite <- Ht in Hrest.
      by rewrite has_colon_key in Hrest.
  - simpl in Hs. destruct (Ascii.eqb a ":") eqn:Ha; [done|].
    destruct ty as [|c ty]; simpl in Heq.
    + inversion Heq as [[Hc Ht]]. subst a. by rewrite Ascii.eqb_refl in Ha.
    + inversion Heq as [[Hc Ht]]. by destruct (IH Hs rest ty id Hrest Ht) as [-> ->].
Qed.

Lemma getCacheKey_marker ty id :
  getCacheKey ty id = getCacheKey "migration" "current_version" ->
  ty = "migration" /\ id = "current_version".
Proof. unfold getCacheKey. simpl. by apply key_split. Qed.

(** ** A cache that agrees with the version marker *)

Lemma store_frame_coherent db db' :
  store_frame db db' -> marker_coherent db -> marker_coherent db'.
Proof.
  intros Hframe Hco it Hit. rewrite (store_frame_marker _ _ Hframe).
  destruct (frame_cache _ _ Hframe _ _ Hit) as [Hold|(ty & id & Hkey & Hfed)].
  - by apply Hco.
  - symmetry in Hkey. by apply getCacheKey_marker in Hkey as [-> ->].
Qed.

Lemma getCurrentVersion_coherent now db :
  marker_coherent db ->
  exists db', getCurrentVersion now (Transact false) db = (versionOf (marker db), db').
Proof.
  intros Hco. unfold getCurrentVersion, Get. simpl. rewrite lookup_empty. simpl.
  assert (Hm : data db !! "migration"
               ≫= (fun entities : gmap string Entity => entities !! "current_version")
               = marker db) by done.
  rewrite Hm. clear Hm. unfold cache_Get.
  destruct (cache db !! getCacheKey "migration" "current_version") as [it|] eqn:Hit.
  - apply Hco in Hit. rewrite Hit.
    destruct ((0 <? Expiration it)%Z && (Expiration it <? now)%Z); simpl;
      destruct (Object it); eauto.
  - destruct (marker db) as [[]|]; simpl; eauto.
Qed.

(** ** Lookups in nested maps *)

Lemma ensure_is_Some {A} ty (m : gmap string (gmap string A)) : is_Some (ensure ty m !! ty).
Proof.
  unfold ensure. destruct (m !! ty) eqn:E; [by rewrite E|by rewrite lookup_insert_eq].
Qed.

Lemma nested_lookup_ensure {A} a b ty (m : gmap string (gmap string A)) :
  nested_lookup a b (ensure ty m) = nested_lookup a b m.
Proof.
  unfold nested_lookup, ensure. destruct (m !! ty) eqn:E; [done|].
  rewrite lookup_insert. destruct (decide (ty = a)) as [->|]; [|done].
  by rewrite E.
Qed.

Lemma nested_lookup_insert {A} a b ty id (x : A) (m : gmap string (gmap string A)) :
  is_Some (m !! ty) ->
  nested_lookup a b (nested_insert ty id x m) =
  if decide (ty = a /\ id = b) then Some x else nested_lookup a b m.
Proof.
  intros [inner Hinner]. unfold nested_lookup, nested_insert. rewrite lookup_alter.
  destruct (decide (ty = a)) as [->|Hty].
  - rewrite Hinner. simpl. rewrite lookup_insert.
    destruct (decide (id = b)) as [->|Hid].
    + by rewrite decide_True.
    + by rewrite decide_False by (intros [_ ?]; done).
  - by rewrite decide_False by (intros [? _]; done).
Qed.

Lemma nested_lookup_delete {A} a b ty id (m : gmap string (gmap string A)) :
  nested_lookup a b (nested_delete ty id m) =
  if decide (ty = a /\ id = b) then None else nested_lookup a b m.
Proof.
  unfold nested_lookup, nested_delete. rewrite lookup_alter.
  destruct (decide (ty = a)) as [->|Hty].
  - destruct (m !! a) as [inner|]; simpl.
    + rewrite lookup_delete. destruct (decide (id = b)) as [->|Hid].
      * by rewrite decide_True.
      * by rewrite decide_False by (intros [_ ?]; done).
    + by destruct (decide _).
  - by rewrite decide_False by (intros [? _]; done).
Qed.

Lemma nested_insert_is_Some {A} a ty id (x : A) (m : gmap string (gmap string A)) :
  is_Some (m !! a) -> is_Some (nested_insert ty id x m !! a).
Proof.
  intros [inner H]. unfold nested_insert. rewrite lookup_alter.
  destruct (decide (ty = a)) as [->|]; rewrite H; simpl; eauto.
Qed.

Lemma nested_delete_is_Some {A} a ty id (m : gmap string (gmap string A)) :
  is_Some (m !! a) -> is_Some (nested_delete ty id m !! a).
Proof.
  intros [inner H]. unfold nested_delete. rewrite lookup_alter.
  destruct (decide (ty = a)) as [->|]; rewrite H; simpl; eauto.
Qed.

Lemma nested_lookup_stage ty id entity tx :
  nested_lookup ty id (changes (stage ty id entity tx)) = Some entity.
Proof.
  unfold stage. simpl. rewrite nested_lookup_insert by apply ensure_is_Some.
  by rewrite decide_True.
Qed.

Section MigrateTwice.

Variable range : forall A : Type, gmap string A -> list (string * A).
Hypothesis range_perm : forall (A : Type) (m : gmap string A), range A m ≡ₚ map_to_list m.

Lemma applyChange_coherent now ty id e db db' :
  is_Some (data db !! ty) ->
  marker_coherent db ->
  applyChange range now ty id e db = Returns db' ->
  is_Some (data db' !! ty) /\ marker_coherent db'.
Proof.
  intros Hty Hco H. unfold applyChange in H.
  apply updateIndexes_frame in H as (Hd & Hc & _).
  split.
  - rewrite Hd. destruct e; simpl;
      [by apply nested_insert_is_Some | by apply nested_delete_is_Some].
  - intros it. unfold marker. rewrite Hd, Hc.
    destruct (decide (getCacheKey ty id = getCacheKey "migration" "current_version"))
      as [Hkey|Hkey].
    + destruct (getCacheKey_marker _ _ Hkey) as [-> ->]. destruct e as [x|]; simpl.
      * unfold cache_Set. rewrite lookup_insert_eq. intros Hit. inversion Hit; subst.
        rewrite nested_lookup_insert by done. by rewrite decide_True.
      * unfold cache_Delete. by rewrite lookup_delete_eq.
    + assert (Hne : ~ (ty = "migration" /\ id = "current_version"))
        by (intros [-> ->]; done).
      destruct e as [x|]; simpl.
      * unfold cache_Set. rewrite lookup_insert_ne by done.
        rewrite nested_lookup_insert by done. rewrite decide_False by done. apply Hco.
      * unfold cache_Delete. rewrite lookup_delete_ne by done.
        rewrite nested_lookup_delete. rewrite decide_False by done. apply Hco.
Qed.

Lemma applyChanges_coherent now ch db db' :
  marker_coherent db ->
  applyChanges range now ch db = Returns db' ->
  marker_coherent db'.
Proof.
  unfold applyChanges. apply forEach_preserve.
  intros ty entries s s' _ Hs Hinner.
  assert (H0 : is_Some (data (set_data (ensure ty) s) !! ty) /\
               marker_coherent (set_data (ensure ty) s)).
  { split; [apply ensure_is_Some|].
    intros it Hit. unfold marker. simpl. rewrite nested_lookup_ensure. by apply Hs. }
  revert H0 Hinner.
  generalize (set_data (ensure ty) s). intros s0 H0 Hinner.
  eapply (forEach_preserve
            (fun s => is_Some (data s !! ty) /\ marker_coherent s)) in Hinner; [|  |exact H0].
  - apply Hinner.
  - intros id e t t' _ [Ht1 Ht2]. by apply applyChange_coherent.
Qed.

Lemma runHooks_readOnly hs ty e tx db tx' db' err :
  runHooks hs ty e tx db = (tx', db', err) -> readOnly tx' = readOnly tx.
Proof.
  revert tx db. induction hs as [|h hs IH]; intros tx db H; simpl in H.
  - by inversion H; subst.
  - destruct (eff_err (h tx db ty e)); [by inversion H; subst|].
    by rewrite (IH _ _ H).
Qed.

Lemma runHooks_keep_marker hs ty e tx db tx' db' err :
  (forall (h : Hook), h ∈ hs ->
     forall tx db ty e,
       nested_lookup "migration" "current_version" (eff_changes (h tx db ty e))
       = nested_lookup "migration" "current_version" (changes tx)) ->
  runHooks hs ty e tx db = (tx', db', err) ->
  nested_lookup "migration" "current_version" (changes tx')
  = nested_lookup "migration" "current_version" (changes tx).
Proof.
  revert tx db. induction hs as [|h hs IH]; intros tx db Hhs H; simpl in H.
  - by inversion H; subst.
  - assert (Hh := Hhs h ltac:(by left) tx db ty e).
    destruct (eff_err (h tx db ty e)); [by inversion H; subst|].
    rewrite (IH _ _ (fun h' Hin => Hhs h' ltac:(by right)) H). exact Hh.
Qed.

Lemma setCurrentVersion_marker reg v tx db tx' db' :
  hooks_keep_marker reg ->
  setCurrentVersion reg v tx db = (tx', db', None) ->
  readOnly tx' = readOnly tx /\
  nested_lookup "migration" "current_version" (changes tx')
  = Some (Some (MigrationVersion "current_version" v)).
Proof.
  intros Hkeep. unfold setCurrentVersion, Set_.
  destruct (readOnly tx) eqn:Hro; [done|].
  destruct (runHooks (hooksFor reg "pre-set") _ _ tx db) as [[tx1 db1] [err|]] eqn:Hpre;
    [done|].
  intros Hpost. split.
  - rewrite (runHooks_readOnly _ _ _ _ _ _ _ _ Hpost). simpl.
    by rewrite (runHooks_readOnly _ _ _ _ _ _ _ _ Hpre).
  - rewrite (runHooks_keep_marker _ _ _ _ _ _ _ _ Hkeep Hpost).
    apply nested_lookup_stage.
Qed.

Lemma applyMigrations_marker reg steps tx db tx' db' :
  hooks_keep_marker reg ->
  applyMigrations reg steps tx db = (tx', db', None) ->
  readOnly tx' = readOnly tx /\
  nested_lookup "migration" "current_version" (changes tx') =
  match last steps with
  | Some m => Some (Some (MigrationVersion "current_version" (Version m)))
  | None => nested_lookup "migration" "current_version" (changes tx)
  end.
Proof.
  intros Hkeep. revert tx db. induction steps as [|m steps IH]; intros tx db H.
  - simpl in H. by inversion H; subst.
  - simpl in H. destruct (eff_err (Up m tx db)); [done|].
    destruct (setCurrentVersion reg (Version m) _ _) as [[tx2 db2] [err|]] eqn:Hset; [done|].
    apply setCurrentVersion_marker in Hset as [Hro2 Hm2]; [|done].
    destruct (IH _ _ H) as [Hro' Hm']. split; [by rewrite Hro', Hro2|].
    rewrite Hm'. destruct steps as [|m' steps]; [exact Hm2|].
    change (last (m :: m' :: steps)) with (last (m' :: steps)).
    destruct (last (m' :: steps)) eqn:E; [done|]. by apply last_None in E.
Qed.

Lemma sorted_last (l : list Z) x y :
  StronglySorted Z.le l -> x ∈ l -> last l = Some y -> (x <= y)%Z.
Proof.
  induction l as [|a l IH]; intros Hs Hx Hy; [by apply elem_of_nil in Hx|].
  apply StronglySorted_inv in Hs as [Hs Hall].
  destruct l as [|b l].
  - apply list_elem_of_singleton in Hx. simpl in Hy. inversion Hy; subst. lia.
  - change (last (a :: b :: l)) with (last (b :: l)) in Hy.
    apply elem_of_cons in Hx as [->|Hx]; [|by apply IH].
    rewrite List.Forall_forall in Hall. apply Hall.
    apply list_elem_of_In. by eapply last_Some_elem_of.
Qed.

Lemma nested_lookup_overlay_data_None ch d ty id :
  nested_lookup ty id ch = None ->
  nested_lookup ty id (overlay_data ch d) = nested_lookup ty id d.
Proof.
  unfold nested_lookup. rewrite lookup_overlay_data.
  destruct (ch !! ty) as [entries|]; simpl; [|done].
  intros H. rewrite lookup_overlayInner, H. by destruct (d !! ty).
Qed.

Lemma save_coherent io db : marker_coherent db -> marker_coherent (save io db).1.
Proof. by destruct io as [|[] ?]. Qed.

Lemma Migrate_nothing_pending now io reg targetVersion db currentVersion db0 :
  getCurrentVersion now (Transact false) db = ((currentVersion, None), db0) ->
  pending currentVersion targetVersion (migrations reg) = [] ->
  Migrate range now io reg targetVersion db = Returns (save io db0).
Proof.
  intros Hcv Hnone. unfold Migrate. rewrite Hcv, migrateLoop_pending, Hnone. simpl.
  unfold Commit, applyChanges. simpl. rewrite range_empty by done. simpl.
  by destruct (save io db0).
Qed.

(** C8 (amended). When the migrations were registered in ascending version
    order (and callbacks only stage and read, post-set hooks leaving the
    staged version marker alone, on a store whose cache agrees with the
    marker), Migrate is idempotent in its target: after a successful
    Migrate(target), the version read by a second Migrate(target) leaves no
    registered migration pending, so no up-function is invoked; the second
    call commits an empty overlay, its error is that of the file write
    alone, and the canonical map, the indexes and the version marker are as
    the first call left them. *)
Theorem Migrate_twice now1 io1 now2 io2 reg targetVersion db db' :
  hooks_frame reg ->
  ups_frame reg ->
  hooks_keep_marker reg ->
  StronglySorted Z.le (map Version (migrations reg)) ->
  marker_coherent db ->
  Migrate range now1 io1 reg targetVersion db = Returns (db', None) ->
  exists currentVersion db0 db'',
    getCurrentVersion now2 (Transact false) db' = ((currentVersion, None), db0) /\
    pending currentVersion targetVersion (migrations reg) = [] /\
    Migrate range now2 io2 reg targetVersion db' =
      Returns (db'', match io2 with WriteOk => None | WriteFails _ err => Some err end) /\
    data db'' = data db' /\
    indexes db'' = indexes db' /\
    marker db'' = marker db'.
Proof.
  intros Hreg Hups Hkeep Hsorted Hco Hfirst.
  (* the first call *)
  destruct (getCurrentVersion_coherent now1 db Hco) as [db0 Hcv0].
  destruct (versionOf (marker db)) as [cv0 err0] eqn:Hv0.
  pose proof (getCurrentVersion_frame _ _ _ _ _ Hcv0) as Hf0.
  unfold Migrate in Hfirst. rewrite Hcv0 in Hfirst.
  destruct err0 as [e0|]; [done|].
  rewrite migrateLoop_pending in Hfirst.
  destruct (applyMigrations reg (pending cv0 targetVersion (migrations reg))
              (Transact false) db0) as [[tx1 db1] err1] eqn:Hrun.
  destruct err1 as [e1|]; [done|].
  assert (Hf1 : store_frame db0 db1).
  { eapply applyMigrations_frame; [done| |exact Hrun].
    intros m Hm. apply Hups. by apply elem_of_pending in Hm as [? _]. }
  destruct (applyMigrations_marker _ _ _ _ _ _ Hkeep Hrun) as [Hro1 Hm1].
  simpl in Hro1, Hm1.
  destruct (Commit range now1 io1 tx1 db1) as [[[tx2 db2] e2]|] eqn:Hcommit; [|done].
  inversion Hfirst; subst db2 e2. clear Hfirst.
  destruct (Commit_write_inv range _ _ _ _ _ _ _ Hro1 Hcommit) as (dbA & Happly & _ & Hsave).
  assert (Hd' : data db' = overlay_data (changes tx1) (data db1)).
  { rewrite <- (applyChanges_data range range_perm _ _ _ _ Happly).
    destruct io1 as [|[] ?]; by inversion Hsave. }
  assert (Hco' : marker_coherent db').
  { replace db' with (save io1 dbA).1 by (by rewrite <- Hsave).
    apply save_coherent. eapply applyChanges_coherent; [|exact Happly].
    eapply store_frame_coherent; [exact Hf1|].
    eapply store_frame_coherent; [exact Hf0|done]. }
  (* the version the second call reads *)
  destruct (getCurrentVersion_coherent now2 db' Hco') as [db0' Hcv'].
  assert (Hpend : exists cv1, versionOf (marker db') = (cv1, None) /\
                              pending cv1 targetVersion (migrations reg) = []).
  { destruct (last (pending cv0 targetVersion (migrations reg))) as [m|] eqn:Hlast.
    - exists (Version m). split.
      + unfold marker. rewrite Hd'. by rewrite (nested_lookup_overlay_data _ _ _ _ _ Hm1).
      + destruct (pending (Version m) targetVersion (migrations reg)) as [|m' l] eqn:Hp;
          [done|exfalso].
        assert (Hm' : m' ∈ pending (Version m) targetVersion (migrations reg))
          by (rewrite Hp; by left).
        apply elem_of_pending in Hm' as [Hin' Hrange'].
        assert (Hm : m ∈ pending cv0 targetVersion (migrations reg))
          by (by eapply last_Some_elem_of).
        apply elem_of_pending in Hm as [Hin Hrange].
        assert (Hle : (Version m' <= Version m)%Z).
        { apply (sorted_last (map Version (pending cv0 targetVersion (migrations reg)))).
          - by apply pending_sorted.
          - apply list_elem_of_In, in_map, list_elem_of_In.
            apply elem_of_pending. split; [done|lia].
          - change (last (Version <$> pending cv0 targetVersion (migrations reg))
                    = Some (Version m)).
            by rewrite fmap_last, Hlast. }
        lia.
    - apply last_None in Hlast. exists cv0. split; [|done].
      etrans; [|exact Hv0]. f_equal. unfold marker in *. rewrite Hd'.
      rewrite nested_lookup_overlay_data_None by (by rewrite Hm1).
      fold (marker db1) (marker db).
      by rewrite (store_frame_marker _ _ Hf1), (store_frame_marker _ _ Hf0). }
  destruct Hpend as (cv1 & Hv1 & Hnone).
  rewrite Hv1 in Hcv'.
  pose proof (getCurrentVersion_frame _ _ _ _ _ Hcv') as Hf'.
  exists cv1, db0', (save io2 db0').1. split_and!; [done|done| | | |].
  - rewrite (Migrate_nothing_pending _ _ _ _ _ _ _ Hcv' Hnone). by destruct io2 as [|[] ?].
  - destruct io2 as [|[] ?]; simpl; apply Hf'.
  - destruct io2 as [|[] ?]; simpl; apply Hf'.
  - transitivity (marker db0'); [by destruct io2 as [|[] ?]|by apply store_frame_marker].
Qed.

End MigrateTwice.

(** ** Reads *)

(** C2. Whatever the store, the cache and the clock hold, Get returns the
    entry staged in the overlay, with found = true. A staged record is so
    returned in preference to the store and cache values; a tombstone, the
    staged nil entity, is returned as (nil, true) and not as "not found". *)
Theorem Get_staged_entry now tx db entityType id staged :
  nested_lookup entityType id (changes tx) = Some staged ->
  Get now tx db entityType id = ((staged, true), db).
Proof. unfold Get, nested_lookup. by intros ->. Qed.

(** Execute has no failure to return: its error is always nil. *)
Lemma Execute_error_nil range q tx db results err :
  Execute range q tx db = Returns (results, err) -> err = None.
Proof.
  unfold Execute. intros H.
  destruct (filterAll (filters q) (GetAll range tx db (entityType_ q))) as [rs|]; [|done].
  destruct (if String.eqb (orderBy q) "" then Returns rs
            else sortSlice (orderLess (orderBy q) (orderDesc q)) rs) as [rs'|]; [|done].
  destruct ((0 <? offset q)%Z && (Z.of_nat (length rs') <=? offset q)%Z);
    by inversion H.
Qed.

(** * The claims on concrete stores *)

Lemma range_list_perm (A : Type) (m : gmap string A) : range_list A m ≡ₚ map_to_list m.
Proof. reflexivity. Qed.

Lemma range_rev_perm (A : Type) (m : gmap string A) : range_rev A m ≡ₚ map_to_list m.
Proof. unfold range_rev. apply Permutation_sym, Permutation_rev. Qed.

(** C1. After two successful commits on an indexed type, the first setting
    record "1" with Name Alice and the second setting it with Name Bob, the
    canonical map holds the record with Name Bob, its id is in the bucket
    of Bob, and it is still in the bucket of Alice: Commit appends to the
    bucket of the new value and never removes an id from a bucket. *)
Theorem Commit_leaves_stale_index_entry :
  Commit range_list 0 WriteOk tx_alice db_indexed = Returns (tx_alice_committed, db_alice, None) /\
  Commit range_list 1 WriteOk tx_rename db_alice
    = Returns (committedTx (Commit range_list 1 WriteOk tx_rename db_alice), db_renamed, None) /\
  nested_lookup "test" "1" (data db_renamed) = Some alice_renamed /\
  ValueString (FieldByName alice_renamed "Name") = "Bob" /\
  bucket "test" "Name" "Bob" db_renamed = ["1"] /\
  bucket "test" "Name" "Alice" db_renamed = ["1"].
Proof. split_and!; vm_compute; reflexivity. Qed.

(** C3, as stated, fails: the file write fails, Commit returns the error,
    and yet the transaction is marked committed and the canonical map, the
    index and the cache hold the record. *)
Lemma Commit_write_failure_keeps_changes :
  Commit range_list 0 (WriteFails (InWrite false) "disk full") tx_alice db_indexed
    = Returns (tx_alice_committed, db_failed, Some "disk full") /\
  committed tx_alice_committed = true /\
  nested_lookup "test" "1" (data db_failed) = Some alice /\
  bucket "test" "Name" "Alice" db_failed = ["1"] /\
  cache_Get 1 (cache db_failed) (getCacheKey "test" "1") = Some alice /\
  Get 1 (Transact true) db_failed "test" "1" = ((Some alice, true), db_failed).
Proof. split_and!; vm_compute; reflexivity. Qed.

(** C4, as stated, fails, on a store with no index. A transaction sets
    record "1" and commits; a second transaction sets another record under
    the same id and commits; the first transaction is then committed again:
    Commit returns no error, and the canonical map, the cache and a Get in
    a new transaction hold the first record again. *)
Lemma Commit_again_undoes_later_commit :
  Commit range_list 0 WriteOk tx_first NewDatabase
    = Returns (tx_first_committed, db_first, None) /\
  committed tx_first_committed = true /\
  Commit range_list 1 WriteOk tx_second db_first
    = Returns (committedTx (Commit range_list 1 WriteOk tx_second db_first), db_second, None) /\
  nested_lookup "test" "1" (data db_second) = Some alice_renamed /\
  Get 2 (Transact true) db_second "test" "1" = ((Some alice_renamed, true), db_second) /\
  Commit range_list 2 WriteOk tx_first_committed db_second
    = Returns (tx_first_committed, db_recommitted, None) /\
  nested_lookup "test" "1" (data db_recommitted) = Some alice /\
  cache_Get 3 (cache db_recommitted) (getCacheKey "test" "1") = Some alice /\
  Get 3 (Transact true) db_recommitted "test" "1" = ((Some alice, true), db_recommitted) /\
  disk db_second = Stored (data db_second) /\
  disk db_recommitted = Stored (data db_recommitted) /\
  FieldByName alice_renamed "Name" = Some (VString "Bob") /\
  FieldByName alice "Name" = Some (VString "Alice").
Proof. split_and!; vm_compute; reflexivity. Qed.

(** C6. One transaction sets record "c" of type "a:b" and record "b:c" of
    type "a" and commits with success. Both have the cache key "a:b:c", so
    the cache keeps the one Commit visited last, and a Get in a new
    transaction returns it for the other: whichever order the overlay was
    visited in, one of the two records set is not the one read back. *)
Theorem Get_after_commit_cache_key_collision :
  nested_lookup "a:b" "c" (changes tx_collide) = Some (Some e_ab) /\
  nested_lookup "a" "b:c" (changes tx_collide) = Some (Some e_a) /\
  getCacheKey "a:b" "c" = getCacheKey "a" "b:c" /\
  Commit range_list 0 WriteOk tx_collide NewDatabase
    = Returns (committedTx (Commit range_list 0 WriteOk tx_collide NewDatabase),
               db_collide, None) /\
  (Get 1 (Transact true) db_collide "a:b" "c").1 = (Some e_a, true) /\
  Commit range_rev 0 WriteOk tx_collide NewDatabase
    = Returns (committedTx (Commit range_rev 0 WriteOk tx_collide NewDatabase),
               db_collide_rev, None) /\
  (Get 1 (Transact true) db_collide_rev "a" "b:c").1 = (Some e_ab, true).
Proof. split_and!; vm_compute; reflexivity. Qed.

(** C9. With alice and bob in the store, a query ordered by Name, a string
    field, does not return an error: the type assertion to Comparable in
    the less function panics. Without OrderBy the same query returns both
    records. *)
Theorem Execute_OrderBy_panics :
  Execute range_list (NewQuery "test") (Transact true) db_two = Returns ([alice; bob], None) /\
  FieldByName alice "Name" = Some (VString "Alice") /\
  Execute range_list (OrderBy "Name" false (NewQuery "test")) (Transact true) db_two = Panics.
Proof. split_and!; vm_compute; reflexivity. Qed.

(** C7, as stated, fails: with version 2 registered before version 1,
    Migrate(2) on a new store runs the up-function of version 2 first and
    that of version 1 second, and leaves the version marker at 1. *)
Lemma Migrate_registration_order :
  map Version (migrations reg_21) = [2; 1]%Z /\
  Migrate range_list 0 WriteOk reg_21 2 NewDatabase = Returns (db_21, None) /\
  nested_lookup "log" "order" (data db_21)
    = Some (StructEntity "Log" "order" [("Seen", VString "21")]) /\
  marker db_21 = Some (MigrationVersion "current_version" 1).
Proof. split_and!; vm_compute; reflexivity. Qed.

(** C8, as stated, fails: with version 2 registered before version 1, a
    second Migrate(2) after a successful one runs the up-function of
    version 2 again and changes the records and the version marker. *)
Lemma Migrate_twice_reapplies :
  Migrate range_list 0 WriteOk reg_21 2 NewDatabase = Returns (db_21, None) /\
  Migrate range_list 1 WriteOk reg_21 2 db_21 = Returns (db_21_again, None) /\
  nested_lookup "log" "order" (data db_21)
    = Some (StructEntity "Log" "order" [("Seen", VString "21")]) /\
  nested_lookup "log" "order" (data db_21_again)
    = Some (StructEntity "Log" "order" [("Seen", VString "212")]) /\
  marker db_21 = Some (MigrationVersion "current_version" 1) /\
  marker db_21_again = Some (MigrationVersion "current_version" 2).
Proof. split_and!; vm_compute; reflexivity. Qed.

(** C10, as stated, fails: on a store loaded from a file, whose cache is
    empty, a staged Delete followed by Rollback leaves the record in the
    cache. *)
Lemma Delete_Rollback_fills_cache :
  cache db_loaded = ∅ /\
  changes (Rollback (runOps noCallbacks [OpDelete 0 "test" "1"] (Transact false) db_loaded).1)
    = ∅ /\
  cache (runOps noCallbacks [OpDelete 0 "test" "1"] (Transact false) db_loaded).2
    !! getCacheKey "test" "1"
    = Some {| Object := GenericEntity "1" {[ "Name" := VString "Alice" ]};
              Expiration := DefaultExpiration |}.
Proof. split_and!; vm_compute; reflexivity. Qed.

(** ** The concrete callbacks only stage and read *)

Lemma noCallbacks_frame : hooks_frame noCallbacks.
Proof.
  intros operation h Hin. unfold hooksFor, noCallbacks, hooksOnly in Hin. simpl in Hin.
  rewrite lookup_empty in Hin. by apply elem_of_nil in Hin.
Qed.

Lemma auditHook_frame tx db entityType entity :
  store_frame db (eff_db (auditHook tx db entityType entity)).
Proof.
  unfold auditHook. destruct (Get 0 tx db "audit" "log") as [r db'] eqn:HGet. simpl.
  by eapply Get_frame.
Qed.

Lemma auditHooks_only operation (h : Hook) :
  h ∈ default [] (auditHooks !! operation) -> h = auditHook.
Proof.
  unfold auditHooks. rewrite lookup_insert.
  destruct (decide ("pre-delete" = operation)); simpl.
  - intros Hin. by apply list_elem_of_singleton in Hin.
  - rewrite lookup_singleton. destruct (decide ("post-set" = operation)); simpl.
    + intros Hin. by apply list_elem_of_singleton in Hin.
    + intros Hin. by apply elem_of_nil in Hin.
Qed.

Lemma auditHooks_frame reg : hooks reg = auditHooks -> hooks_frame reg.
Proof.
  intros Hreg operation h Hin. unfold hooksFor in Hin. rewrite Hreg in Hin.
  apply auditHooks_only in Hin as ->. apply auditHook_frame.
Qed.

Lemma auditHooks_keep_marker reg : hooks reg = auditHooks -> hooks_keep_marker reg.
Proof.
  intros Hreg h Hin. unfold hooksFor in Hin. rewrite Hreg in Hin.
  apply auditHooks_only in Hin as ->. intros tx db entityType entity.
  unfold auditHook. by destruct (Get 0 tx db "audit" "log").
Qed.

Lemma logUp_frame hs name tx db :
  hooks_frame (hooksOnly hs) -> store_frame db (eff_db (logUp hs name tx db)).
Proof.
  intros Hhs. unfold logUp.
  destruct (Get 0 tx db "log" "order") as [[entity ok] db1] eqn:HGet.
  apply Get_frame in HGet. eapply store_frame_trans; [exact HGet|].
  destruct (Set_ (hooksOnly hs) "log" _ tx db1) as [[tx2 db2] err] eqn:HSet.
  simpl. by eapply Set_frame.
Qed.

Lemma failingUp_frame tx db : store_frame db (eff_db (failingUp tx db)).
Proof. apply store_frame_refl. Qed.

Lemma reg_12_ups_frame : ups_frame reg_12.
Proof.
  intros m Hm tx db. simpl in Hm.
  apply elem_of_cons in Hm as [->|Hm]; [by apply logUp_frame, auditHooks_frame|].
  apply list_elem_of_singleton in Hm as ->. by apply logUp_frame, auditHooks_frame.
Qed.

Lemma reg_failing_ups_frame : ups_frame reg_failing.
Proof.
  intros m Hm tx db. simpl in Hm.
  apply elem_of_cons in Hm as [->|Hm]; [by apply logUp_frame, auditHooks_frame|].
  apply list_elem_of_singleton in Hm as ->. apply failingUp_frame.
Qed.

Lemma NewDatabase_coherent : marker_coherent NewDatabase.
Proof. intros it Hit. simpl in Hit. by rewrite lookup_empty in Hit. Qed.

(** ** The theorems at concrete stores *)

Lemma Get_staged_entry_witness :
  nested_lookup "test" "1" (changes tx_delete) = Some None /\
  nested_lookup "test" "1" (data db_alice) = Some alice /\
  Get 1 tx_delete db_alice "test" "1" = ((None, true), db_alice).
Proof.
  assert (H1 : nested_lookup "test" "1" (changes tx_delete) = Some None)
    by (vm_compute; reflexivity).
  split_and!; [exact H1|vm_compute; reflexivity|].
  exact (Get_staged_entry 1 tx_delete db_alice "test" "1" None H1).
Defined.

Lemma Commit_tombstone_indexed_panics_witness :
  readOnly tx_delete = false /\
  nested_lookup "test" "1" (changes tx_delete) = Some None /\
  nested_lookup "test" "Name" (indexes db_alice) = Some {[ "Alice" := ["1"] ]} /\
  Commit range_list 2 WriteOk tx_delete db_alice = Panics.
Proof.
  assert (H1 : readOnly tx_delete = false) by reflexivity.
  assert (H2 : nested_lookup "test" "1" (changes tx_delete) = Some None)
    by (vm_compute; reflexivity).
  assert (H3 : nested_lookup "test" "Name" (indexes db_alice) = Some {[ "Alice" := ["1"] ]})
    by (vm_compute; reflexivity).
  split_and!; [exact H1|exact H2|exact H3|].
  exact (Commit_tombstone_indexed_panics range_list range_list_perm 2 WriteOk
           tx_delete db_alice "test" "1" "Name" _ H1 H2 H3).
Defined.

Lemma Commit_write_failure_witness :
  readOnly tx_alice = false /\
  Commit range_list 0 (WriteFails (InWrite false) "disk full") tx_alice db_indexed
    = Returns (tx_alice_committed, db_failed, Some "disk full") /\
  committed tx_alice_committed = true /\
  data db_failed = overlay_data (changes tx_alice) (data db_indexed) /\
  nested_lookup "test" "1" (data db_failed) = Some alice.
Proof.
  assert (H1 : readOnly tx_alice = false) by reflexivity.
  assert (H2 : Commit range_list 0 (WriteFails (InWrite false) "disk full") tx_alice db_indexed
               = Returns (tx_alice_committed, db_failed, Some "disk full"))
    by (vm_compute; reflexivity).
  destruct (Commit_write_failure range_list range_list_perm _ _ _ _ _ _ _ _ H1 H2)
    as (_ & Hc & Hdata & Hstaged & _).
  split_and!; [exact H1|exact H2|exact Hc|exact Hdata|].
  apply (Hstaged "test" "1" (Some alice)). vm_compute. reflexivity.
Defined.

Lemma Commit_again_witness :
  readOnly tx_first_committed = false /\
  committed tx_first_committed = true /\
  Commit range_list 2 WriteOk tx_first_committed db_second
    = Returns (tx_first_committed, db_recommitted, None) /\
  nested_lookup "test" "1" (data db_recommitted) = Some alice /\
  disk db_recommitted = Stored (data db_recommitted).
Proof.
  assert (H1 : readOnly tx_first_committed = false) by reflexivity.
  assert (H2 : committed tx_first_committed = true) by reflexivity.
  assert (H3 : Commit range_list 2 WriteOk tx_first_committed db_second
               = Returns (tx_first_committed, db_recommitted, None))
    by (vm_compute; reflexivity).
  destruct (Commit_again range_list range_list_perm _ _ _ _ _ _ _ H1 H2 H3)
    as (_ & _ & Hstaged & _ & Hfile).
  split_and!; [exact H1|exact H2|exact H3| |exact (Hfile eq_refl)].
  apply (Hstaged "test" "1" (Some alice)). vm_compute. reflexivity.
Defined.

Lemma Rollback_frame_witness :
  hooks_frame (hooksOnly auditHooks) /\
  data (runOps (hooksOnly auditHooks)
          [OpSet "test" bob; OpDelete 1000000000000 "test" "1"] (Transact false) db_alice).2
    = data db_alice /\
  indexes (runOps (hooksOnly auditHooks)
             [OpSet "test" bob; OpDelete 1000000000000 "test" "1"] (Transact false) db_alice).2
    = indexes db_alice.
Proof.
  assert (Hh : hooks_frame (hooksOnly auditHooks)) by (by apply auditHooks_frame).
  split; [exact Hh|].
  destruct (runOps (hooksOnly auditHooks)
              [OpSet "test" bob; OpDelete 1000000000000 "test" "1"] (Transact false) db_alice)
    as [tx' db'] eqn:Hrun.
  destruct (Rollback_frame _ _ _ _ _ _ Hh Hrun) as (_ & Hd & Hi & _).
  split; [exact Hd|exact Hi].
Defined.

Lemma Migrate_applies_pending_witness :
  hooks_frame reg_failing /\
  ups_frame reg_failing /\
  getCurrentVersion 0 (Transact false) NewDatabase = ((0%Z, None), NewDatabase) /\
  map Version (pending 0 2 (migrations reg_failing)) = [1; 2]%Z /\
  Migrate range_list 0 WriteOk reg_failing 2 NewDatabase
    = Returns (NewDatabase, Some "up failed") /\
  marker NewDatabase = None.
Proof.
  assert (H1 : hooks_frame reg_failing) by (by apply auditHooks_frame).
  assert (H2 : getCurrentVersion 0 (Transact false) NewDatabase = ((0%Z, None), NewDatabase))
    by (vm_compute; reflexivity).
  destruct (Migrate_applies_pending range_list 0 WriteOk reg_failing 2 NewDatabase 0
              NewDatabase H1 reg_failing_ups_frame H2) as (_ & _ & _ & Hfail & _).
  split_and!; [exact H1|exact reg_failing_ups_frame|exact H2|reflexivity| |reflexivity].
  refine (proj1 (Hfail
    (applyMigrations reg_failing (pending 0 2 (migrations reg_failing))
       (Transact false) NewDatabase).1.1 NewDatabase "up failed" _)).
  vm_compute. reflexivity.
Defined.

Lemma Migrate_twice_witness :
  hooks_frame reg_12 /\
  ups_frame reg_12 /\
  hooks_keep_marker reg_12 /\
  StronglySorted Z.le (map Version (migrations reg_12)) /\
  marker_coherent NewDatabase /\
  Migrate range_list 0 WriteOk reg_12 2 NewDatabase = Returns (db_12, None) /\
  exists db'',
    Migrate range_list 400000000000 WriteOk reg_12 2 db_12 = Returns (db'', None) /\
    data db'' = data db_12 /\
    marker db'' = marker db_12.
Proof.
  assert (H1 : hooks_frame reg_12) by (by apply auditHooks_frame).
  assert (H3 : hooks_keep_marker reg_12) by (by apply auditHooks_keep_marker).
  assert (H4 : StronglySorted Z.le (map Version (migrations reg_12))).
  { simpl. repeat constructor; lia. }
  assert (H6 : Migrate range_list 0 WriteOk reg_12 2 NewDatabase = Returns (db_12, None))
    by (vm_compute; reflexivity).
  destruct (Migrate_twice range_list range_list_perm 0 WriteOk 400000000000 WriteOk
              reg_12 2 NewDatabase db_12 H1 reg_12_ups_frame H3 H4 NewDatabase_coherent H6)
    as (cv & db0 & db'' & _ & _ & Hm & Hd & _ & Hmk).
  split_and!; [exact H1|exact reg_12_ups_frame|exact H3|exact H4|
               exact NewDatabase_coherent|exact H6|].
  exists db''. split_and!; [exact Hm|exact Hd|exact Hmk].
Defined.

(** * Further properties of Commit *)

Lemma forEach_returns {A S : Type} (I : S -> Prop) (body : string -> A -> S -> Outcome S)
  (l : list (string * A)) :
  (forall k v s, (k, v) ∈ l -> I s -> exists s', body k v s = Returns s' /\ I s') ->
  forall s, I s -> exists s', forEach body l s = Returns s' /\ I s'.
Proof.
  induction l as [|[k v] l IH]; intros Hbody s Hs; simpl; [by eauto|].
  destruct (Hbody k v s) as (s1 & -> & Hs1); [by left|done|].
  apply IH; [|done]. intros k' v' t Hin. apply Hbody. by right.
Qed.

Lemma nested_lookup_appendIndex_None ty field ty' f' v id ix :
  nested_lookup ty field ix = None ->
  nested_lookup ty field (appendIndex ty' f' v id ix) = None.
Proof.
  unfold nested_lookup, appendIndex. intros H.
  rewrite lookup_alter. destruct (decide (ty' = ty)) as [->|Hne]; [|done].
  destruct (ix !! ty) as [fields|] eqn:Hf; simpl in *; [|done].
  rewrite lookup_alter. destruct (decide (f' = field)) as [->|]; by rewrite H.
Qed.

(** getCacheKey tells two pairs apart when the entity types hold no colon. *)
Lemma key_split_types ty :
  has_colon ty = false ->
  forall ty' id id',
    has_colon ty' = false ->
    ty ++ String ":" id = ty' ++ String ":" id' -> ty = ty' /\ id = id'.
Proof.
  induction ty as [|a ty IH]; intros Hty ty' id id' Hty' Heq.
  - destruct ty' as [|c ty']; simpl in Heq.
    + by inversion Heq.
    + inversion Heq as [[Hc Ht]]. subst c. simpl in Hty'. try rewrite Ascii.eqb_refl in Hty'. done.
  - simpl in Hty. destruct (Ascii.eqb a ":") eqn:Ha; [done|].
    destruct ty' as [|c ty']; simpl in Heq.
    + inversion Heq as [[Hc Ht]]. subst a. by rewrite Ascii.eqb_refl in Ha.
    + inversion Heq as [[Hc Ht]]. subst c. simpl in Hty'. rewrite Ha in Hty'.
      by destruct (IH Hty ty' id id' Hty' Ht) as [-> ->].
Qed.

Section CommitMore.

Variable range : forall A : Type, gmap string A -> list (string * A).
Hypothesis range_perm : forall (A : Type) (m : gmap string A), range A m ≡ₚ map_to_list m.

Lemma updateIndexes_record_returns db ty id e s :
  stays_unindexed db s ->
  exists s', updateIndexes range ty id (Some e) s = Returns s' /\ stays_unindexed db s'.
Proof.
  unfold updateIndexes. apply forEach_returns.
  intros field index t _ Ht. eexists. split; [done|].
  intros ty' Hty' f. simpl. apply nested_lookup_appendIndex_None. by apply Ht.
Qed.

Lemma updateIndexes_unindexed ty id entity s :
  unindexed ty s -> updateIndexes range ty id entity s = Returns s.
Proof.
  intros Hun. unfold updateIndexes.
  assert (Hempty : default ∅ (indexes s !! ty) = ∅).
  { destruct (indexes s !! ty) as [fields|] eqn:Hf; [|done]. simpl.
    apply map_empty. intros f. specialize (Hun f). unfold nested_lookup in Hun.
    by rewrite Hf in Hun. }
  rewrite Hempty, (range_empty range range_perm). done.
Qed.

Lemma applyChange_returns now db ty id entity s :
  stays_unindexed db s ->
  (entity = None -> unindexed ty db) ->
  exists s', applyChange range now ty id entity s = Returns s' /\ stays_unindexed db s'.
Proof.
  intros Hs Hnil. unfold applyChange. destruct entity as [e|].
  - by apply updateIndexes_record_returns.
  - eexists. split; [apply updateIndexes_unindexed; by apply Hs, Hnil|done].
Qed.

Lemma applyChanges_returns now ch db :
  (forall ty id, nested_lookup ty id ch = Some None -> unindexed ty db) ->
  exists db', applyChanges range now ch db = Returns db'.
Proof.
  intros Hnil. unfold applyChanges.
  destruct (forEach_returns (stays_unindexed db)
              (fun entityType entities db =>
                 forEach (applyChange range now entityType) (range _ entities)
                         (set_data (ensure entityType) db))
              (range _ ch)) with (s := db) as (db' & H & _); [| |by eauto].
  - intros ty entries s Hin Hs. apply (range_elem_of range range_perm) in Hin.
    apply forEach_returns; [|done].
    intros id entity t Hid Ht. apply (range_elem_of range range_perm) in Hid.
    apply applyChange_returns; [done|]. intros ->. apply (Hnil ty id).
    unfold nested_lookup. by rewrite Hin.
  - by intros ty Hty.
Qed.

(** X1. Commit returns (it does not panic) whenever no tombstone is staged
    for an entity type that has a registered index: the reflection in the
    index loop is the only panic of Commit. *)
Theorem Commit_returns now io tx db :
  (forall entityType id,
     nested_lookup entityType id (changes tx) = Some None -> unindexed entityType db) ->
  exists tx' db' e, Commit range now io tx db = Returns (tx', db', e).
Proof.
  intros Hnil. unfold Commit. destruct (readOnly tx); [by eauto|].
  destruct (applyChanges_returns now _ _ Hnil) as [db1 ->].
  destruct (save io db1) as [db2 err]. by eauto.
Qed.

(** ** The cache after the loops of Commit *)

Lemma applyChange_cache now ty' id' entity s s' k :
  applyChange range now ty' id' entity s = Returns s' ->
  cache s' !! k =
  if decide (getCacheKey ty' id' = k) then cachedItem now entity else cache s !! k.
Proof.
  unfold applyChange. intros H.
  apply (updateIndexes_frame range) in H as (_ & -> & _).
  destruct entity as [e|]; simpl; unfold cache_Set, cache_Delete.
  - rewrite lookup_insert. by destruct (decide (getCacheKey ty' id' = k)).
  - rewrite lookup_delete. by destruct (decide (getCacheKey ty' id' = k)).
Qed.

Lemma inner_loop_cache now ty id ty' (l : list (string * option Entity)) :
  NoDup l.*1 ->
  (forall id' staged, (id', staged) ∈ l ->
     getCacheKey ty' id' = getCacheKey ty id -> ty' = ty /\ id' = id) ->
  forall s s',
    forEach (applyChange range now ty') l s = Returns s' ->
    cache s' !! getCacheKey ty id =
    match (if decide (ty' = ty) then (list_to_map l : gmap string (option Entity)) !! id
           else None) with
    | Some staged => cachedItem now staged
    | None => cache s !! getCacheKey ty id
    end.
Proof.
  induction l as [|[id' e'] l IH]; intros Hnd Huniq s s' Hrun; simpl in *.
  - inversion Hrun; subst. rewrite lookup_empty. by destruct (decide (ty' = ty)).
  - apply NoDup_cons in Hnd as [Hfresh Hnd].
    destruct (applyChange range now ty' id' e' s) as [s1|] eqn:Hstep; [|done].
    apply (applyChange_cache _ _ _ _ _ _ (getCacheKey ty id)) in Hstep.
    rewrite (IH Hnd (fun i st Hin => Huniq i st ltac:(by right)) s1 s' Hrun).
    apply not_elem_of_list_to_map in Hfresh.
    destruct (decide (ty' = ty)) as [->|Hty].
    + rewrite lookup_insert. destruct (decide (id' = id)) as [->|Hid].
      * rewrite Hfresh, Hstep. by rewrite decide_True.
      * destruct (list_to_map l !! id); [done|]. rewrite Hstep.
        rewrite decide_False; [done|]. intros Hk.
        destruct (Huniq id' e' ltac:(by left) Hk) as [_ ?]. done.
    + rewrite Hstep. rewrite decide_False; [done|]. intros Hk.
      destruct (Huniq id' e' ltac:(by left) Hk) as [? _]. done.
Qed.

Lemma outer_loop_cache now ty id (L : list (string * gmap string (option Entity))) :
  NoDup L.*1 ->
  (forall ty' entries id' staged, (ty', entries) ∈ L -> entries !! id' = Some staged ->
     getCacheKey ty' id' = getCacheKey ty id -> ty' = ty /\ id' = id) ->
  forall s s',
    forEach (fun ty' entries db =>
               forEach (applyChange range now ty') (range _ entries)
                       (set_data (ensure ty') db)) L s = Returns s' ->
    cache s' !! getCacheKey ty id =
    match nested_lookup ty id (list_to_map L) with
    | Some staged => cachedItem now staged
    | None => cache s !! getCacheKey ty id
    end.
Proof.
  induction L as [|[ty' entries] L IH]; intros Hnd Huniq s s' Hrun; simpl in *.
  - inversion Hrun; subst. unfold nested_lookup. by rewrite lookup_empty.
  - apply NoDup_cons in Hnd as [Hfresh Hnd].
    destruct (forEach (applyChange range now ty') (range _ entries)
                (set_data (ensure ty') s)) as [s1|] eqn:Hinner; [|done].
    apply (inner_loop_cache now ty id) in Hinner; [|apply (range_NoDup range range_perm)|].
    2:{ intros id' st Hin. apply (range_elem_of range range_perm) in Hin.
        apply (Huniq ty' entries id' st); [by left|done]. }
    rewrite (range_to_map range range_perm) in Hinner. simpl in Hinner.
    rewrite (IH Hnd (fun t en i st Hin => Huniq t en i st ltac:(by right)) s1 s' Hrun).
    apply not_elem_of_list_to_map in Hfresh. unfold nested_lookup in *.
    rewrite lookup_insert. destruct (decide (ty' = ty)) as [->|Hty].
    + rewrite Hfresh. simpl. rewrite Hinner. by destruct (entries !! id).
    + by rewrite Hinner.
Qed.

Lemma applyChanges_cache now ch db db' ty id staged :
  (forall ty' id' staged', nested_lookup ty' id' ch = Some staged' ->
     getCacheKey ty' id' = getCacheKey ty id -> ty' = ty /\ id' = id) ->
  nested_lookup ty id ch = Some staged ->
  applyChanges range now ch db = Returns db' ->
  cache db' !! getCacheKey ty id = cachedItem now staged.
Proof.
  intros Huniq Hst H. unfold applyChanges in H.
  apply (outer_loop_cache now ty id) in H; [|apply (range_NoDup range range_perm)|].
  - rewrite (range_to_map range range_perm) in H. by rewrite Hst in H.
  - intros ty' entries id' st Hin Hid. apply (range_elem_of range range_perm) in Hin.
    apply (Huniq ty' id' st). unfold nested_lookup. by rewrite Hin.
Qed.

Lemma Get_fresh_committed now' ro db ty id staged it :
  nested_lookup ty id (data db) = staged ->
  cache db !! getCacheKey ty id = it ->
  (forall i, it = Some i -> staged = Some (Object i)) ->
  (Get now' (Transact ro) db ty id).1 = readBack staged.
Proof.
  intros Hd Hc Hco. unfold Get. simpl. rewrite lookup_empty. simpl.
  unfold cache_Get. rewrite Hc. unfold nested_lookup in Hd.
  destruct it as [i|].
  - rewrite (Hco i eq_refl) in *.
    destruct ((0 <? Expiration i)%Z && (Expiration i <? now')%Z); [|done].
    by rewrite Hd.
  - rewrite Hd. by destruct staged.
Qed.

(** X2. Read-your-committed-writes, for entity types without a colon: when
    the staged entity types hold no colon and Commit returns, every staged
    entry is read back by Get in a new transaction, at any later time: a
    staged record is returned, and a staged Delete reads as not found. *)
Theorem Get_after_Commit now io tx db tx' db' e entityType id staged now' ro :
  readOnly tx = false ->
  (forall ty entries, changes tx !! ty = Some entries -> has_colon ty = false) ->
  nested_lookup entityType id (changes tx) = Some staged ->
  Commit range now io tx db = Returns (tx', db', e) ->
  (Get now' (Transact ro) db' entityType id).1 = readBack staged.
Proof.
  intros Hro Hcolon Hst H.
  destruct (Commit_write_inv range _ _ _ _ _ _ _ Hro H) as (db1 & Happly & _ & Hsave).
  assert (Hd1 : data db' = data db1 /\ cache db' = cache db1)
    by (destruct io as [|[] ?]; by inversion Hsave).
  destruct Hd1 as [Hd1 Hc1].
  eapply Get_fresh_committed.
  - rewrite Hd1, (applyChanges_data range range_perm _ _ _ _ Happly).
    by apply nested_lookup_overlay_data.
  - rewrite Hc1. eapply applyChanges_cache; [|exact Hst|exact Happly].
    intros ty' id' st' Hst' Hkey. unfold getCacheKey in Hkey. simpl in Hkey.
    apply key_split_types in Hkey; [done| |].
    + unfold nested_lookup in Hst'. destruct (changes tx !! ty') eqn:E; [|done].
      by eapply Hcolon.
    + unfold nested_lookup in Hst. destruct (changes tx !! entityType) eqn:E; [|done].
      by eapply Hcolon.
  - intros i Hi. destruct staged as [x|]; simpl in Hi; [|done]. by inversion Hi.
Qed.

(** X3. A Commit leaves every record the overlay does not mention as it
    was in the canonical map. *)
Theorem Commit_keeps_other_records now io tx db tx' db' e entityType id :
  nested_lookup entityType id (changes tx) = None ->
  Commit range now io tx db = Returns (tx', db', e) ->
  nested_lookup entityType id (data db') = nested_lookup entityType id (data db).
Proof.
  intros Hnone H. destruct (readOnly tx) eqn:Hro.
  - unfold Commit in H. rewrite Hro in H. by inversion H; subst.
  - destruct (Commit_write_inv range _ _ _ _ _ _ _ Hro H) as (db1 & Happly & _ & Hsave).
    assert (Hd1 : data db' = data db1) by (destruct io as [|[] ?]; by inversion Hsave).
    rewrite Hd1, (applyChanges_data range range_perm _ _ _ _ Happly).
    by apply nested_lookup_overlay_data_None.
Qed.

(** X4. Commit never removes an id from an index bucket: an id occurs in
    a bucket after a Commit at least as often as before. *)
Theorem Commit_buckets_grow now io tx db tx' db' e entityType field value id :
  Commit range now io tx db = Returns (tx', db', e) ->
  occurrences id (bucket entityType field value db)
  <= occurrences id (bucket entityType field value db').
Proof.
  intros H. destruct (readOnly tx) eqn:Hro.
  - unfold Commit in H. rewrite Hro in H. by inversion H; subst.
  - destruct (Commit_write_inv range _ _ _ _ _ _ _ Hro H) as (db1 & Happly & _ & Hsave).
    assert (Hb : bucket entityType field value db' = bucket entityType field value db1)
      by (destruct io as [|[] ?]; by inversion Hsave).
    rewrite Hb.
    destruct (nested_lookup entityType field (indexes db)) as [index|] eqn:Hix.
    + rewrite (applyChanges_count range range_perm now (changes tx) db db1
                 entityType field value id); [lia|by rewrite Hix|done].
    + unfold bucket at 1. rewrite Hix. simpl. unfold occurrences. simpl. lia.
Qed.

(** X5. Rollback empties the overlay, so a Commit after Rollback applies
    nothing: on a write transaction it returns the outcome of the file
    write and leaves the canonical map, the indexes and the cache as they
    were. *)
Theorem Commit_after_Rollback now io tx db :
  readOnly tx = false ->
  exists tx', Commit range now io (Rollback tx) db = Returns (tx', (save io db).1, (save io db).2) /\
              committed tx' = true.
Proof.
  intros Hro. unfold Commit, Rollback, applyChanges. simpl. rewrite Hro.
  rewrite (range_empty range range_perm). simpl.
  destruct (save io db) as [db2 err]. simpl. by eauto.
Qed.

End CommitMore.

(** X6. getCacheKey is injective on entity types that hold no colon: two
    (type, id) pairs with such types and the same cache key are the same
    pair, whatever the ids hold. *)
Theorem getCacheKey_inj entityType id entityType' id' :
  has_colon entityType = false ->
  has_colon entityType' = false ->
  getCacheKey entityType id = getCacheKey entityType' id' ->
  entityType = entityType' /\ id = id'.
Proof.
  intros H H' Hkey. unfold getCacheKey in Hkey. simpl in Hkey.
  by apply key_split_types in Hkey.
Qed.

(** * AddIndex *)

Lemma nested_lookup_appendIndex_ne ty field ty' f' v id ix :
  ~ (ty' = ty /\ f' = field) ->
  nested_lookup ty field (appendIndex ty' f' v id ix) = nested_lookup ty field ix.
Proof.
  unfold nested_lookup, appendIndex. intros Hne.
  rewrite lookup_alter. destruct (decide (ty' = ty)) as [->|]; [|done].
  destruct (ix !! ty) as [fields|]; simpl; [|done].
  rewrite lookup_alter. destruct (decide (f' = field)) as [->|]; [|done].
  by destruct Hne.
Qed.

Section AddIndexFacts.

Variable range : forall A : Type, gmap string A -> list (string * A).
Hypothesis range_perm : forall (A : Type) (m : gmap string A), range A m ≡ₚ map_to_list m.

Lemma index_fold_count ty field v id (l : list (string * Entity)) :
  NoDup l.*1 ->
  forall db,
    is_Some (nested_lookup ty field (indexes db)) ->
    occurrences id
      (bucket ty field v
         (fold_left (fun db '(id, entity) =>
                       set_indexes
                         (appendIndex ty field (ValueString (FieldByName entity field)) id) db)
                    l db)) =
    occurrences id (bucket ty field v db) +
    hit ((list_to_map l : gmap string Entity) !! id) field v.
Proof.
  induction l as [|[id' e'] l IH]; intros Hnd db Hix; simpl.
  - rewrite lookup_empty. simpl. lia.
  - apply NoDup_cons in Hnd as [Hfresh Hnd].
    rewrite IH; [|done|by apply nested_lookup_appendIndex_is_Some].
    destruct Hix as [index Hix]. rewrite (bucket_appendIndex _ _ _ _ _ _ _ _ _ Hix).
    apply not_elem_of_list_to_map in Hfresh. simpl in Hfresh. rewrite lookup_insert.
    destruct (decide (id' = id)) as [->|Hid].
    + rewrite Hfresh. simpl.
      destruct (decide (ValueString (FieldByName e' field) = v)) as [Hv|Hv].
      * rewrite decide_True by done. rewrite occurrences_snoc, decide_True by done. lia.
      * rewrite decide_False by (intros (_ & _ & ?); done). lia.
    + destruct (decide (ty = ty /\ field = field /\ ValueString (FieldByName e' field) = v)).
      * rewrite occurrences_snoc, decide_False by done. lia.
      * lia.
Qed.

Lemma index_fold_other ty field ty' f' (l : list (string * Entity)) db :
  ~ (ty = ty' /\ field = f') ->
  nested_lookup ty' f'
    (indexes (fold_left (fun db '(id, entity) =>
                           set_indexes
                             (appendIndex ty field (ValueString (FieldByName entity field)) id)
                             db) l db))
  = nested_lookup ty' f' (indexes db).
Proof.
  intros Hne. revert db. induction l as [|[id e] l IH]; intros db; simpl; [done|].
  rewrite IH. simpl. by apply nested_lookup_appendIndex_ne.
Qed.

Lemma index_fold_frame ty field (l : list (string * Entity)) db :
  let db' := fold_left (fun db '(id, entity) =>
                          set_indexes
                            (appendIndex ty field (ValueString (FieldByName entity field)) id)
                            db) l db in
  data db' = data db /\ cache db' = cache db /\ disk db' = disk db.
Proof.
  revert db. induction l as [|[id e] l IH]; intros db; simpl; [done|].
  destruct (IH (set_indexes
                  (appendIndex ty field (ValueString (FieldByName e field)) id) db))
    as (-> & -> & ->). done.
Qed.

(** X7. AddIndex builds the index of (entityType, field) afresh, whatever
    it held before: the id of every record of the type occurs exactly once
    in the bucket of the value of its field and in no other bucket, and no
    other id occurs in any bucket. *)
Theorem AddIndex_exact entityType field value id db :
  occurrences id (bucket entityType field value (AddIndex range entityType field db)) =
  hit (nested_lookup entityType id (data db)) field value.
Proof.
  unfold AddIndex.
  set (db1 := set_indexes
                (fun ix => alter (fun fields => <[field := ∅]> fields) entityType
                             (ensure entityType ix)) db).
  assert (Hix : nested_lookup entityType field (indexes db1) = Some ∅).
  { unfold db1. simpl.
    change (alter (fun fields => <[field := ∅]> fields) entityType
              (ensure entityType (indexes db)))
      with (nested_insert entityType field (∅ : gmap string (list string))
              (ensure entityType (indexes db))).
    rewrite nested_lookup_insert by apply ensure_is_Some. by rewrite decide_True. }
  rewrite index_fold_count; [|apply (range_NoDup range range_perm)|by rewrite Hix].
  rewrite (range_to_map range range_perm).
  unfold bucket. rewrite Hix. simpl. rewrite lookup_empty. simpl.
  unfold occurrences. simpl. unfold nested_lookup.
  by destruct (data db !! entityType).
Qed.

(** X8. AddIndex touches nothing but the index it builds: the canonical
    map, the cache and the file are as before, and so is the index of
    every other (type, field) that was registered. *)
Theorem AddIndex_frame entityType field db :
  data (AddIndex range entityType field db) = data db /\
  cache (AddIndex range entityType field db) = cache db /\
  disk (AddIndex range entityType field db) = disk db /\
  forall entityType' field' index,
    ~ (entityType = entityType' /\ field = field') ->
    nested_lookup entityType' field' (indexes db) = Some index ->
    nested_lookup entityType' field' (indexes (AddIndex range entityType field db))
    = Some index.
Proof.
  unfold AddIndex.
  set (db1 := set_indexes
                (fun ix => alter (fun fields => <[field := ∅]> fields) entityType
                             (ensure entityType ix)) db).
  destruct (index_fold_frame entityType field
              (range _ (default ∅ (data db !! entityType))) db1) as (Hd & Hc & Hk).
  split_and!; [by rewrite Hd|by rewrite Hc|by rewrite Hk|].
  intros ty' f' index Hne Hix. rewrite index_fold_other by done.
  unfold db1. simpl.
  change (alter (fun fields => <[field := ∅]> fields) entityType
            (ensure entityType (indexes db)))
    with (nested_insert entityType field (∅ : gmap string (list string))
            (ensure entityType (indexes db))).
  rewrite nested_lookup_insert by apply ensure_is_Some.
  rewrite decide_False by done. by rewrite nested_lookup_ensure.
Qed.

End AddIndexFacts.

(** * Set, Delete, the batches and the hooks *)

Lemma runHooks_app hs1 hs2 ty e tx db :
  runHooks (hs1 ++ hs2) ty e tx db =
  match runHooks hs1 ty e tx db with
  | (tx1, db1, Some err) => (tx1, db1, Some err)
  | (tx1, db1, None) => runHooks hs2 ty e tx1 db1
  end.
Proof.
  revert tx db. induction hs1 as [|h hs1 IH]; intros tx db; simpl; [done|].
  destruct (eff_err (h tx db ty e)); [done|]. apply IH.
Qed.

(** X9. Hooks run in registration order and the chain stops at the first
    failure: a hook added by RegisterHook runs after the hooks registered
    before it for that operation, on the state they left, and only when
    none of them returned an error. *)
Theorem RegisterHook_runs_last operation hook reg entityType entity tx db :
  runHooks (hooksFor (RegisterHook operation hook reg) operation) entityType entity tx db =
  match runHooks (hooksFor reg operation) entityType entity tx db with
  | (tx1, db1, Some err) => (tx1, db1, Some err)
  | (tx1, db1, None) =>
      (after tx1 (hook tx1 db1 entityType entity),
       eff_db (hook tx1 db1 entityType entity),
       eff_err (hook tx1 db1 entityType entity))
  end.
Proof.
  unfold hooksFor at 1, RegisterHook. simpl. rewrite lookup_insert_eq. simpl.
  fold (hooksFor reg operation). rewrite runHooks_app.
  destruct (runHooks (hooksFor reg operation) entityType entity tx db) as [[tx1 db1] [err|]];
    [done|].
  simpl. by destruct (eff_err (hook tx1 db1 entityType entity)).
Qed.

(** X10. On a read-only transaction Set, Delete and a non-empty BatchSet or
    BatchDelete return an error and change neither the overlay nor the
    store; an empty batch returns nil even there. *)
Theorem readOnly_rejects_writes now reg entityType entity id entities ids tx db :
  readOnly tx = true ->
  (exists err, Set_ reg entityType entity tx db = (tx, db, Some err)) /\
  (exists err, Delete now reg entityType id tx db = (tx, db, Some err)) /\
  (exists err, BatchSet reg entityType (entity :: entities) tx db = (tx, db, Some err)) /\
  (exists err, BatchDelete now reg entityType (id :: ids) tx db = (tx, db, Some err)) /\
  BatchSet reg entityType [] tx db = (tx, db, None) /\
  BatchDelete now reg entityType [] tx db = (tx, db, None).
Proof.
  intros Hro. simpl. unfold Set_, Delete. rewrite Hro. by eauto 10.
Qed.

Lemma Get_overlay_hit now tx db ty id staged :
  nested_lookup ty id (changes tx) = Some staged ->
  Get now tx db ty id = ((staged, true), db).
Proof. unfold Get, nested_lookup. by intros ->. Qed.

Lemma runHooks_keep_entry hs ty id ty' e tx db tx' db' err :
  (forall (h : Hook), h ∈ hs ->
     forall tx db ty' e,
       nested_lookup ty id (eff_changes (h tx db ty' e)) = nested_lookup ty id (changes tx)) ->
  runHooks hs ty' e tx db = (tx', db', err) ->
  nested_lookup ty id (changes tx') = nested_lookup ty id (changes tx).
Proof.
  revert tx db. induction hs as [|h hs IH]; intros tx db Hhs H; simpl in H.
  - by inversion H; subst.
  - assert (Hh := Hhs h ltac:(by left) tx db ty' e).
    destruct (eff_err (h tx db ty' e)); [by inversion H; subst|].
    rewrite (IH _ _ (fun h' Hin => Hhs h' ltac:(by right)) H). exact Hh.
Qed.

(** X11. Read-your-own-writes: after a Set that returned nil, with
    post-set hooks that leave the staged entry alone, Get in the same
    transaction returns the record that was set, whatever the store and
    the cache hold, and does not touch the store. *)
Theorem Get_after_Set reg entityType entity tx db tx' db' now db'' :
  hooks_keep_entry reg "post-set" entityType (GetID entity) ->
  Set_ reg entityType entity tx db = (tx', db', None) ->
  Get now tx' db'' entityType (GetID entity) = ((Some entity, true), db'').
Proof.
  intros Hkeep. unfold Set_. destruct (readOnly tx); [done|].
  destruct (runHooks (hooksFor reg "pre-set") _ _ tx db) as [[tx1 db1] [err|]]; [done|].
  intros Hpost. apply Get_overlay_hit.
  rewrite (runHooks_keep_entry _ _ _ _ _ _ _ _ _ _ Hkeep Hpost).
  apply nested_lookup_stage.
Qed.

Lemma nested_lookup_stage_other ty id entity tx a b :
  ~ (ty = a /\ id = b) ->
  nested_lookup a b (changes (stage ty id entity tx)) = nested_lookup a b (changes tx).
Proof.
  intros Hne. unfold stage. simpl. rewrite nested_lookup_insert by apply ensure_is_Some.
  rewrite decide_False by done. apply nested_lookup_ensure.
Qed.

Lemma Set_no_hooks reg ty e tx db :
  readOnly tx = false ->
  no_hooks reg "pre-set" -> no_hooks reg "post-set" ->
  Set_ reg ty e tx db = (stage ty (GetID e) (Some e) tx, db, None).
Proof. intros Hro Hpre Hpost. unfold Set_. by rewrite Hro, Hpre, Hpost. Qed.

Lemma Delete_no_hooks now reg ty id tx db :
  readOnly tx = false ->
  no_hooks reg "pre-delete" -> no_hooks reg "post-delete" ->
  exists db', Delete now reg ty id tx db = (stage ty id None tx, db', None).
Proof.
  intros Hro Hpre Hpost. unfold Delete. rewrite Hro, Hpre, Hpost.
  destruct (Get now tx db ty id) as [[entity [|]] db0]; simpl; by eauto.
Qed.

(** X12. BatchSet on a write transaction with no set hooks, for records
    with distinct ids: it returns nil, leaves the store as it is, every
    record of the batch is then read back by Get in the transaction, and
    the other staged entries are as before. *)
Theorem BatchSet_stages_all reg entityType entities tx db :
  readOnly tx = false ->
  no_hooks reg "pre-set" ->
  no_hooks reg "post-set" ->
  NoDup (GetID <$> entities) ->
  exists tx',
    BatchSet reg entityType entities tx db = (tx', db, None) /\
    (forall e, e ∈ entities ->
       forall now db'', Get now tx' db'' entityType (GetID e) = ((Some e, true), db'')) /\
    (forall ty id, ~ (ty = entityType /\ id ∈ GetID <$> entities) ->
       nested_lookup ty id (changes tx') = nested_lookup ty id (changes tx)).
Proof.
  intros Hro Hpre Hpost. revert tx Hro.
  induction entities as [|e es IH]; intros tx Hro Hnd; simpl.
  - exists tx. split_and!; [done| |done]. intros e He. by apply elem_of_nil in He.
  - apply NoDup_cons in Hnd as [Hfresh Hnd].
    rewrite Set_no_hooks by done.
    destruct (IH (stage entityType (GetID e) (Some e) tx) Hro Hnd) as (tx' & Hrun & Hget & Hother).
    exists tx'. split_and!; [done| |].
    + intros x Hx now db''. apply elem_of_cons in Hx as [->|Hx]; [|by apply Hget].
      apply Get_overlay_hit. rewrite Hother by (intros [_ ?]; done).
      apply nested_lookup_stage.
    + intros ty id Hne. rewrite Hother.
      * apply nested_lookup_stage_other. intros [? ?]; subst. apply Hne. split; [done|by left].
      * intros [-> Hin]. apply Hne. split; [done|by right].
Qed.

(** X13. A batch stops at its first error and keeps what was staged before
    it: BatchSet and BatchDelete on a list l1 ++ l2 do what they do on l1
    and, only when that returned nil, go on with l2 on the state l1 left. *)
Theorem Batch_stops_at_first_error now reg entityType es1 es2 ids1 ids2 tx db :
  BatchSet reg entityType (es1 ++ es2) tx db =
    match BatchSet reg entityType es1 tx db with
    | (tx1, db1, Some err) => (tx1, db1, Some err)
    | (tx1, db1, None) => BatchSet reg entityType es2 tx1 db1
    end /\
  BatchDelete now reg entityType (ids1 ++ ids2) tx db =
    match BatchDelete now reg entityType ids1 tx db with
    | (tx1, db1, Some err) => (tx1, db1, Some err)
    | (tx1, db1, None) => BatchDelete now reg entityType ids2 tx1 db1
    end.
Proof.
  split.
  - revert tx db. induction es1 as [|e es1 IH]; intros tx db; simpl; [done|].
    destruct (Set_ reg entityType e tx db) as [[tx1 db1] [err|]]; [done|apply IH].
  - revert tx db. induction ids1 as [|id ids1 IH]; intros tx db; simpl; [done|].
    destruct (Delete now reg entityType id tx db) as [[tx1 db1] [err|]]; [done|apply IH].
Qed.

(** X14. Delete of a record that Get does not find skips the delete hooks
    altogether: on a write transaction it stages the tombstone, returns
    nil and leaves the store as it is, whatever hooks are registered. *)
Theorem Delete_missing_skips_hooks now reg entityType id tx db :
  readOnly tx = false ->
  (Get now tx db entityType id).1 = (None, false) ->
  Delete now reg entityType id tx db = (stage entityType id None tx, db, None).
Proof.
  intros Hro Hget. unfold Delete. rewrite Hro.
  unfold Get in *.
  destruct (changes tx !! entityType ≫= _); [done|].
  destruct (cache_Get now (cache db) (getCacheKey entityType id)); [done|].
  by destruct (data db !! entityType ≫= _).
Qed.

(** X15. A Get repeated at the same instant returns the same answer and
    leaves the store as the first Get left it: the first Get has filled
    the cache, and the item it stored has not expired. *)
Theorem Get_twice now tx db entityType id r db' :
  Get now tx db entityType id = (r, db') ->
  Get now tx db' entityType id = (r, db').
Proof.
  unfold Get. intros H.
  destruct (changes tx !! entityType ≫= _) as [staged|]; [by inversion H; subst|].
  destruct (cache_Get now (cache db) (getCacheKey entityType id)) as [c|] eqn:Hc.
  - inversion H; subst. by rewrite Hc.
  - destruct (data db !! entityType ≫= _) as [e|] eqn:He.
    + inversion H; subst. simpl. unfold cache_Get, cache_Set.
      rewrite lookup_insert_eq. simpl.
      replace ((now + DefaultExpiration <? now)%Z) with false
        by (symmetry; apply Z.ltb_ge; unfold DefaultExpiration; lia).
      by rewrite andb_false_r.
    + inversion H; subst. by rewrite Hc, He.
Qed.

(** ** Records sit under their own ids *)

Lemma runOp_no_hooks_changes reg op tx db tx' db' e :
  (forall operation, no_hooks reg operation) ->
  runOp reg op tx db = (tx', db', e) ->
  tx' = tx \/
  match op with
  | OpSet ty entity => tx' = stage ty (GetID entity) (Some entity) tx
  | OpDelete _ ty id => tx' = stage ty id None tx
  end.
Proof.
  intros Hno H. destruct (readOnly tx) eqn:Hro.
  - left. destruct op; simpl in H; unfold Set_, Delete in H; rewrite Hro in H;
      by inversion H.
  - right. destruct op as [ty entity|now ty id]; simpl in H.
    + rewrite Set_no_hooks in H by done. by inversion H.
    + destruct (Delete_no_hooks now reg ty id tx db Hro (Hno _) (Hno _)) as [db0 Hd].
      rewrite Hd in H. by inversion H.
Qed.

Lemma stage_well_keyed ty id entity tx :
  (forall e, entity = Some e -> GetID e = id) ->
  well_keyed_overlay (changes tx) ->
  well_keyed_overlay (changes (stage ty id entity tx)).
Proof.
  intros He Hwk a b x Hx.
  destruct (decide (ty = a /\ id = b)) as [[-> ->]|Hne].
  - rewrite nested_lookup_stage in Hx. inversion Hx; subst. by apply He.
  - rewrite nested_lookup_stage_other in Hx by done. by eapply Hwk.
Qed.

(** X16. Set and Delete stage every record under its own id: with no
    hooks registered, a sequence of Set and Delete calls keeps the overlay
    such that every staged record sits under the id GetID returns. *)
Theorem runOps_well_keyed reg ops tx db tx' db' :
  (forall operation, no_hooks reg operation) ->
  well_keyed_overlay (changes tx) ->
  runOps reg ops tx db = (tx', db') ->
  well_keyed_overlay (changes tx').
Proof.
  intros Hno. revert tx db. induction ops as [|op ops IH]; intros tx db Hwk H; simpl in H.
  - by inversion H; subst.
  - destruct (runOp reg op tx db) as [[tx1 db1] e] eqn:Hop.
    eapply IH; [|exact H].
    destruct (runOp_no_hooks_changes _ _ _ _ _ _ _ Hno Hop) as [->|Hst]; [done|].
    destruct op; subst tx1; apply stage_well_keyed; try done.
    by intros e' [= <-].
Qed.

Section KeyedCommit.

Variable range : forall A : Type, gmap string A -> list (string * A).
Hypothesis range_perm : forall (A : Type) (m : gmap string A), range A m ≡ₚ map_to_list m.

Lemma overlay_data_well_keyed ch d :
  well_keyed d -> well_keyed_overlay ch -> well_keyed (overlay_data ch d).
Proof.
  intros Hd Hch ty id e He.
  destruct (nested_lookup ty id ch) as [staged|] eqn:Hst.
  - rewrite (nested_lookup_overlay_data _ _ _ _ _ Hst) in He. subst staged.
    by eapply Hch.
  - rewrite nested_lookup_overlay_data_None in He by done. by eapply Hd.
Qed.

(** X17. Commit keeps the records of the canonical map under their own
    ids: when they are so before, and in the overlay, they are so after
    every Commit that returns. *)
Theorem Commit_well_keyed now io tx db tx' db' e :
  well_keyed (data db) ->
  well_keyed_overlay (changes tx) ->
  Commit range now io tx db = Returns (tx', db', e) ->
  well_keyed (data db').
Proof.
  intros Hd Hch H. destruct (readOnly tx) eqn:Hro.
  - unfold Commit in H. rewrite Hro in H. by inversion H; subst.
  - destruct (Commit_write_inv range _ _ _ _ _ _ _ Hro H) as (db1 & Happly & _ & Hsave).
    assert (Hd1 : data db' = data db1) by (destruct io as [|[] ?]; by inversion Hsave).
    rewrite Hd1, (applyChanges_data range range_perm _ _ _ _ Happly).
    by apply overlay_data_well_keyed.
Qed.

End KeyedCommit.

(** * GetAll *)

Lemma removeFirst_elem id l :
  NoDup (GetID <$> l) ->
  forall e, e ∈ removeFirst id l <-> e ∈ l /\ GetID e <> id.
Proof.
  induction l as [|a l IH]; intros Hnd e; simpl.
  - split; [by intros H; apply elem_of_nil in H|by intros [H _]; apply elem_of_nil in H].
  - simpl in Hnd. apply NoDup_cons in Hnd as [Hfresh Hnd].
    destruct (String.eqb_spec (GetID a) id) as [Ha|Ha].
    + rewrite elem_of_cons. split.
      * intros He. split; [by right|]. intros Hid. apply Hfresh.
        rewrite Ha, <- Hid. by apply list_elem_of_fmap_2.
      * intros [[->|He] Hid]; [by destruct Hid|done].
    + rewrite !elem_of_cons, (IH Hnd). split.
      * intros [->|[He Hid]]; [split; [by left|done]|split; [by right|done]].
      * intros [[->|He] Hid]; [by left|by right].
Qed.

Lemma removeFirst_NoDup id l :
  NoDup (GetID <$> l) -> NoDup (GetID <$> removeFirst id l).
Proof.
  induction l as [|a l IH]; intros Hnd; simpl; [done|].
  simpl in Hnd. apply NoDup_cons in Hnd as [Hfresh Hnd].
  destruct (String.eqb (GetID a) id); [done|]. simpl.
  apply NoDup_cons. split; [|by apply IH].
  intros Hin. apply list_elem_of_fmap in Hin as (e & He & Hin).
  apply (removeFirst_elem id l Hnd) in Hin as [Hin _].
  apply Hfresh. rewrite He. by apply list_elem_of_fmap_2.
Qed.

Lemma replaceOrAppend_elem id x l :
  GetID x = id ->
  NoDup (GetID <$> l) ->
  forall e, e ∈ replaceOrAppend id x l <-> e = x \/ (e ∈ l /\ GetID e <> id).
Proof.
  intros Hx. induction l as [|a l IH]; intros Hnd e; simpl.
  - rewrite list_elem_of_singleton. split; [by left|].
    intros [->|[H _]]; [done|by apply elem_of_nil in H].
  - simpl in Hnd. apply NoDup_cons in Hnd as [Hfresh Hnd].
    destruct (String.eqb_spec (GetID a) id) as [Ha|Ha].
    + rewrite !elem_of_cons. split.
      * intros [->|He]; [by left|]. right. split; [by right|].
        intros Hid. apply Hfresh. rewrite Ha, <- Hid. by apply list_elem_of_fmap_2.
      * intros [->|[[->|He] Hid]]; [by left|by destruct Hid|by right].
    + rewrite !elem_of_cons, (IH Hnd). split.
      * intros [->|[->|[He Hid]]]; [right; split; [by left|done]|by left|].
        right. split; [by right|done].
      * intros [->|[[->|He] Hid]]; [right; by left|by left|]. right. right. done.
Qed.

Lemma replaceOrAppend_NoDup id x l :
  GetID x = id ->
  NoDup (GetID <$> l) -> NoDup (GetID <$> replaceOrAppend id x l).
Proof.
  intros Hx. induction l as [|a l IH]; intros Hnd; simpl.
  - apply NoDup_singleton.
  - simpl in Hnd. pose proof Hnd as Hnd0. apply NoDup_cons in Hnd as [Hfresh Hnd].
    destruct (String.eqb_spec (GetID a) id) as [Ha|Ha]; simpl.
    + by rewrite Hx, <- Ha.
    + apply NoDup_cons. split; [|by apply IH].
      intros Hin. apply list_elem_of_fmap in Hin as (e & He & Hin).
      apply (replaceOrAppend_elem id x l Hx Hnd) in Hin as [Heq|[Hin _]].
      * congruence.
      * apply Hfresh. rewrite He. by apply list_elem_of_fmap_2.
Qed.

Lemma listed_delete id l m :
  listed l m -> listed (removeFirst id l) (delete id m).
Proof.
  intros [Hnd Hl]. split; [by apply removeFirst_NoDup|].
  intros e. rewrite (removeFirst_elem id l Hnd), Hl, lookup_delete.
  destruct (decide (id = GetID e)) as [->|Hne].
  - split; [by intros [_ ?]|done].
  - split; [by intros [? _]|]. intros H. split; [done|]. congruence.
Qed.

Lemma listed_insert id x l m :
  GetID x = id ->
  listed l m -> listed (replaceOrAppend id x l) (<[id := x]> m).
Proof.
  intros Hx [Hnd Hl]. split; [by apply replaceOrAppend_NoDup|].
  intros e. rewrite (replaceOrAppend_elem id x l Hx Hnd), Hl, lookup_insert.
  destruct (decide (id = GetID e)) as [Hid|Hne].
  - split.
    + intros [->|[_ Hne]]; [done|]. by destruct Hne.
    + intros [= ->]. by left.
  - split.
    + intros [->|[H _]]; [by destruct Hne|done].
    + intros H. right. split; [done|]. congruence.
Qed.

Lemma listed_values (l : list (string * Entity)) :
  NoDup l.*1 ->
  (forall id e, (id, e) ∈ l -> GetID e = id) ->
  NoDup (GetID <$> map snd l) /\ forall e, e ∈ map snd l <-> (GetID e, e) ∈ l.
Proof.
  induction l as [|[id a] l IH]; intros Hnd Hkey; simpl.
  - split; [constructor|]. intros e. split; intros H; by apply elem_of_nil in H.
  - simpl in Hnd. apply NoDup_cons in Hnd as [Hfresh Hnd].
    destruct (IH Hnd (fun i e Hin => Hkey i e ltac:(by right))) as [Hnd' Hl].
    assert (Ha : GetID a = id) by (apply Hkey; by left).
    split.
    + apply NoDup_cons. split; [|done].
      intros Hin. apply list_elem_of_fmap in Hin as (e & He & Hin).
      apply Hl in Hin. apply Hfresh. rewrite <- Ha, He.
      by apply (list_elem_of_fmap_2 fst _ (GetID e, e)).
    + intros e. rewrite !elem_of_cons, Hl. split.
      * intros [->|H]; [left; by rewrite Ha|by right].
      * intros [[= _ ->]|H]; [by left|by right].
Qed.

Lemma overlay_fold_listed (ov : list (string * option Entity)) :
  NoDup ov.*1 ->
  (forall id x, (id, Some x) ∈ ov -> GetID x = id) ->
  forall l m,
    listed l m ->
    listed (fold_left (fun entities '(id, entity) =>
                         match entity with
                         | None => removeFirst id entities
                         | Some e => replaceOrAppend id e entities
                         end) ov l)
           (overlayInner (list_to_map ov) m).
Proof.
  induction ov as [|[id st] ov IH]; intros Hnd Hkey l m Hl; simpl.
  - by rewrite overlayInner_empty.
  - simpl in Hnd. apply NoDup_cons in Hnd as [Hfresh Hnd].
    apply not_elem_of_list_to_map in Hfresh.
    set (m1 := match st with None => delete id m | Some x => <[id := x]> m end).
    assert (Hm : overlayInner (<[id := st]> (list_to_map ov)) m
                 = overlayInner (list_to_map ov) m1).
    { apply map_eq. intros j. rewrite !lookup_overlayInner, lookup_insert.
      destruct (decide (id = j)) as [->|Hj].
      - rewrite Hfresh. unfold m1.
        destruct st; [by rewrite lookup_insert_eq|by rewrite lookup_delete_eq].
      - destruct (list_to_map ov !! j); [done|]. unfold m1.
        destruct st; [by rewrite lookup_insert_ne|by rewrite lookup_delete_ne]. }
    rewrite Hm. apply IH; [done|by intros i x Hin; apply Hkey; right|].
    unfold m1. destruct st as [x|].
    + apply listed_insert; [|done]. apply Hkey. by left.
    + by apply listed_delete.
Qed.

Section GetAllFacts.

Variable range : forall A : Type, gmap string A -> list (string * A).
Hypothesis range_perm : forall (A : Type) (m : gmap string A), range A m ≡ₚ map_to_list m.

Lemma listed_range (m : gmap string Entity) :
  (forall id e, m !! id = Some e -> GetID e = id) ->
  listed (map snd (range _ m)) m.
Proof.
  intros Hkey.
  destruct (listed_values (range _ m)) as [Hnd Hl].
  - apply (range_NoDup range range_perm).
  - intros id e Hin. apply Hkey. by apply (range_elem_of range range_perm).
  - split; [done|]. intros e. rewrite Hl. apply (range_elem_of range range_perm).
Qed.

(** X18. GetAll returns the merged view, each record once: when the
    records sit under their own ids in the canonical map and in the
    overlay, the records GetAll returns for a type are exactly those a
    Commit of the overlay would leave in the canonical map for that type
    (staged records override or add, tombstoned ids are left out), and no
    two of them share an id. *)
Theorem GetAll_merged tx db entityType :
  well_keyed (data db) ->
  well_keyed_overlay (changes tx) ->
  NoDup (GetID <$> GetAll range tx db entityType) /\
  forall e,
    e ∈ GetAll range tx db entityType <->
    nested_lookup entityType (GetID e) (overlay_data (changes tx) (data db)) = Some e.
Proof.
  intros Hd Hch. unfold GetAll.
  assert (Hl : listed match data db !! entityType with
                      | Some entityMap => map snd (range _ entityMap)
                      | None => []
                      end (default ∅ (data db !! entityType))).
  { destruct (data db !! entityType) as [inner|] eqn:Hinner; simpl.
    - apply listed_range. intros id e He. apply (Hd entityType).
      unfold nested_lookup. by rewrite Hinner.
    - split; [constructor|]. intros e. rewrite lookup_empty.
      split; [by intros H; apply elem_of_nil in H|done]. }
  assert (Hview : forall id,
            nested_lookup entityType id (overlay_data (changes tx) (data db)) =
            overlayInner (default ∅ (changes tx !! entityType))
                         (default ∅ (data db !! entityType)) !! id).
  { intros id. unfold nested_lookup. rewrite lookup_overlay_data.
    destruct (changes tx !! entityType) as [ce|]; simpl; [done|].
    rewrite overlayInner_empty. by destruct (data db !! entityType). }
  destruct (changes tx !! entityType) as [ce|] eqn:Hce; simpl in Hview.
  - destruct (overlay_fold_listed (range _ ce)) with (l := match data db !! entityType with
                      | Some entityMap => map snd (range _ entityMap)
                      | None => []
                      end) (m := default ∅ (data db !! entityType)) as [Hnd Hin].
    + apply (range_NoDup range range_perm).
    + intros id x Hx. apply (range_elem_of range range_perm) in Hx.
      apply (Hch entityType). unfold nested_lookup. by rewrite Hce.
    + done.
    + rewrite (range_to_map range range_perm) in Hin.
      split; [done|]. intros e. by rewrite Hin, Hview.
  - destruct Hl as [Hnd Hin]. split; [done|]. intros e.
    rewrite Hin, Hview. by rewrite overlayInner_empty.
Qed.

End GetAllFacts.

(** * The query pipeline *)

Lemma matches_true fs e :
  matches fs e = Returns true <-> Forall (fun f => f e = Returns true) fs.
Proof.
  induction fs as [|f fs IH]; simpl; [split; [constructor|done]|].
  rewrite Forall_cons. destruct (f e) as [[|]|]; [|split; [done|by intros [? _]]..].
  rewrite IH. split; [done|by intros [_ ?]].
Qed.

(** X19. The filters of a query are combined with "and", in the order in
    which they were added, and evaluation stops at the first one that
    rejects: an entity matches exactly when every filter returns true, and
    once a filter has returned false the later ones are not called, so
    they cannot panic. *)
Theorem matches_and_short_circuit fs1 f fs2 e :
  (matches (fs1 ++ f :: fs2)%list e = Returns true <->
   Forall (fun g => g e = Returns true) fs1 /\ f e = Returns true /\
   Forall (fun g => g e = Returns true) fs2) /\
  (Forall (fun g => g e = Returns true) fs1 -> f e = Returns false ->
   matches (fs1 ++ f :: fs2)%list e = Returns false).
Proof.
  split.
  - by rewrite matches_true, Forall_app, Forall_cons.
  - intros H1 Hf. induction H1 as [|g fs1 Hg _ IH]; simpl; [by rewrite Hf|].
    by rewrite Hg.
Qed.

Lemma filterAll_elem fs l rs :
  filterAll fs l = Returns rs ->
  forall x, x ∈ rs -> x ∈ l /\ matches fs x = Returns true.
Proof.
  revert rs. induction l as [|e l IH]; intros rs H x Hx; simpl in H.
  - inversion H; subst. by apply elem_of_nil in Hx.
  - destruct (matches fs e) as [m|] eqn:Hm; [|done].
    destruct (filterAll fs l) as [rs'|]; [|done]. inversion H; subst. clear H.
    destruct m.
    + apply elem_of_cons in Hx as [->|Hx]; [split; [by left|done]|].
      destruct (IH rs' eq_refl x Hx). split; [by right|done].
    + destruct (IH rs' eq_refl x Hx). split; [by right|done].
Qed.

Lemma insertLeft_perm less x sr sr' :
  insertLeft less x sr = Returns sr' -> sr' ≡ₚ x :: sr.
Proof.
  revert sr'. induction sr as [|y sr IH]; intros sr' H; simpl in H.
  - by inversion H.
  - destruct (less x y) as [[|]|]; [|by inversion H|done].
    destruct (insertLeft less x sr) as [rest|]; [|done]. inversion H; subst.
    rewrite (IH rest eq_refl). apply perm_swap.
Qed.

Lemma insertionSort_perm less sr todo out :
  insertionSort less sr todo = Returns out -> out ≡ₚ (rev sr ++ todo)%list.
Proof.
  revert sr. induction todo as [|x todo IH]; intros sr H; simpl in H.
  - inversion H; subst. by rewrite app_nil_r.
  - destruct (insertLeft less x sr) as [sr'|] eqn:Hins; [|done].
    rewrite (IH _ H). apply insertLeft_perm in Hins.
    rewrite <- !Permutation_rev, Hins. simpl. apply Permutation_middle.
Qed.

Lemma orderLess_ranked field desc a b ra rb :
  rankOf field a = Some ra -> rankOf field b = Some rb ->
  orderLess field desc a b = Returns (if desc then (rb <? ra)%Z else (ra <? rb)%Z).
Proof.
  unfold rankOf, orderLess, asComparable. intros Ha Hb.
  destruct (FieldByName a field) as [[]|]; try done.
  destruct (FieldByName b field) as [[]|]; try done.
  inversion Ha; inversion Hb; subst. unfold Compare.
  destruct desc; f_equal.
  - destruct (Z.compare_spec ra rb); symmetry;
      [apply Z.ltb_ge; lia|apply Z.ltb_ge; lia|apply Z.ltb_lt; lia].
  - destruct (Z.compare_spec ra rb); symmetry;
      [apply Z.ltb_ge; lia|apply Z.ltb_lt; lia|apply Z.ltb_ge; lia].
Qed.

Lemma ordered_trans field desc a b c :
  ordered field desc a b -> ordered field desc b c -> ordered field desc a c.
Proof.
  intros (ra & rb & Ha & Hb & H1) (rb' & rc & Hb' & Hc & H2).
  rewrite Hb in Hb'. inversion Hb'; subst rb'.
  exists ra, rc. split_and!; [done|done|]. destruct desc; lia.
Qed.

Lemma insertLeft_sorted field desc x sr :
  is_Some (rankOf field x) ->
  Forall (fun e => is_Some (rankOf field e)) sr ->
  StronglySorted (fun a b => ordered field desc b a) sr ->
  exists sr', insertLeft (orderLess field desc) x sr = Returns sr' /\
              StronglySorted (fun a b => ordered field desc b a) sr'.
Proof.
  intros [rx Hx]. induction sr as [|y sr IH]; intros Hall Hs; simpl.
  - eexists. split; [done|]. repeat constructor.
  - apply Forall_cons in Hall as [[ry Hy] Hall].
    apply StronglySorted_inv in Hs as [Hs Hy_all].
    rewrite (orderLess_ranked field desc x y rx ry Hx Hy).
    destruct (if desc then (ry <? rx)%Z else (rx <? ry)%Z) eqn:Hlt.
    + destruct (IH Hall Hs) as (sr' & Hins & Hs'). rewrite Hins.
      eexists. split; [done|]. constructor; [done|].
      apply insertLeft_perm in Hins. rewrite Forall_forall. intros z Hz.
      rewrite Hins in Hz.
      apply elem_of_cons in Hz as [->|Hz].
      * exists rx, ry. split_and!; [done|done|].
        destruct desc; [apply Z.ltb_lt in Hlt|apply Z.ltb_lt in Hlt]; lia.
      * rewrite List.Forall_forall in Hy_all. apply Hy_all. by apply list_elem_of_In.
    + eexists. split; [done|].
      assert (Hyx : ordered field desc y x).
      { exists ry, rx. split_and!; [done|done|].
        destruct desc; apply Z.ltb_ge in Hlt; lia. }
      constructor; [by constructor|]. constructor; [done|].
      rewrite List.Forall_forall in *. intros z Hz.
      eapply ordered_trans; [by apply Hy_all|done].
Qed.

Lemma StronglySorted_snoc {A} (R : A -> A -> Prop) l x :
  StronglySorted R l -> (forall a, a ∈ l -> R a x) -> StronglySorted R (l ++ [x])%list.
Proof.
  induction l as [|y l IH]; intros Hs Hx; simpl; [repeat constructor|].
  apply StronglySorted_inv in Hs as [Hs Hy]. constructor.
  - apply IH; [done|]. intros a Ha. apply Hx. by right.
  - apply List.Forall_app. split; [done|]. constructor; [|constructor].
    apply Hx. by left.
Qed.

Lemma insertionSort_sorted field desc todo :
  Forall (fun e => is_Some (rankOf field e)) todo ->
  forall sr,
    Forall (fun e => is_Some (rankOf field e)) sr ->
    StronglySorted (fun a b => ordered field desc b a) sr ->
    exists out, insertionSort (orderLess field desc) sr todo = Returns out /\
                StronglySorted (ordered field desc) out.
Proof.
  induction todo as [|x todo IH]; intros Htodo sr Hall Hs; simpl.
  - eexists. split; [done|].
    clear Hall. induction Hs as [|y sr Hs IHs Hy]; simpl; [constructor|].
    apply StronglySorted_snoc; [done|].
    intros a Ha. rewrite List.Forall_forall in Hy. apply Hy.
    apply list_elem_of_In in Ha. by apply in_rev.
  - apply Forall_cons in Htodo as [Hx Htodo].
    destruct (insertLeft_sorted field desc x sr Hx Hall Hs) as (sr' & Hins & Hs').
    rewrite Hins. apply IH; [done| |done].
    apply insertLeft_perm in Hins. rewrite Hins. by constructor.
Qed.

Section ExecuteFacts.

Variable range : forall A : Type, gmap string A -> list (string * A).

(** X20. What Execute returns: its error is always nil; every result is
    a record of GetAll that every filter accepts; with a positive limit
    there are at most limit results; and with a positive offset that is
    not below the number of matching records the result is empty. *)
Theorem Execute_results q tx db results err :
  Execute range q tx db = Returns (results, err) ->
  err = None /\
  (forall x, x ∈ results ->
     x ∈ GetAll range tx db (entityType_ q) /\ matches (filters q) x = Returns true) /\
  ((0 < limit q)%Z -> (Z.of_nat (length results) <= limit q)%Z) /\
  (forall rs, filterAll (filters q) (GetAll range tx db (entityType_ q)) = Returns rs ->
     (0 < offset q)%Z -> (Z.of_nat (length rs) <= offset q)%Z -> results = []).
Proof.
  unfold Execute. intros H.
  destruct (filterAll (filters q) (GetAll range tx db (entityType_ q))) as [rs|] eqn:Hf;
    [|done].
  destruct (if String.eqb (orderBy q) "" then Returns rs
            else sortSlice (orderLess (orderBy q) (orderDesc q)) rs) as [sorted|] eqn:Hs;
    [|done].
  assert (Hperm : sorted ≡ₚ rs).
  { destruct (String.eqb (orderBy q) ""); [by inversion Hs|].
    apply insertionSort_perm in Hs. by rewrite Hs. }
  destruct ((0 <? offset q)%Z && (Z.of_nat (length sorted) <=? offset q)%Z) eqn:Hoff.
  - inversion H; subst. split_and!; [done| |simpl; lia|done].
    intros x Hx. by apply elem_of_nil in Hx.
  - inversion H; subst. clear H. split_and!; [done| | |].
    + intros x Hx. eapply filterAll_elem; [exact Hf|]. rewrite <- Hperm.
      assert (Hsub : (if (0 <? limit q)%Z &&
                         (limit q <? Z.of_nat (length
                            (if (0 <? offset q)%Z then drop (Z.to_nat (offset q)) sorted
                             else sorted)))%Z
                      then take (Z.to_nat (limit q))
                             (if (0 <? offset q)%Z then drop (Z.to_nat (offset q)) sorted
                              else sorted)
                      else if (0 <? offset q)%Z then drop (Z.to_nat (offset q)) sorted
                           else sorted) `sublist_of` sorted).
      { destruct ((0 <? limit q)%Z && _); destruct (0 <? offset q)%Z.
        - etrans; [apply sublist_take|apply sublist_drop].
        - apply sublist_take.
        - apply sublist_drop.
        - done. }
      by eapply elem_of_sublist.
    + intros Hlim. destruct ((0 <? limit q)%Z && _) eqn:Hl.
      * rewrite length_take. lia.
      * apply andb_false_iff in Hl as [Hl|Hl]; [apply Z.ltb_ge in Hl; lia|].
        apply Z.ltb_ge in Hl. lia.
    + intros rs' [= <-] Hpos Hlen. apply Permutation_length in Hperm.
      apply andb_false_iff in Hoff as [Hoff|Hoff]; [apply Z.ltb_ge in Hoff; lia|].
      apply Z.leb_gt in Hoff. lia.
Qed.

(** X21. OrderBy on a field that holds Comparable values in every
    matching record: Execute (here without offset and limit) returns the
    matching records, each as often as it matched, sorted by Compare on
    that field, ascending, or descending when asked so. *)
Theorem Execute_OrderBy_sorted q tx db rs :
  orderBy q <> "" ->
  (offset q <= 0)%Z ->
  (limit q <= 0)%Z ->
  filterAll (filters q) (GetAll range tx db (entityType_ q)) = Returns rs ->
  Forall (fun e => is_Some (rankOf (orderBy q) e)) rs ->
  exists results,
    Execute range q tx db = Returns (results, None) /\
    results ≡ₚ rs /\
    StronglySorted (ordered (orderBy q) (orderDesc q)) results.
Proof.
  intros Hob Hoff Hlim Hf Hall. unfold Execute. rewrite Hf.
  apply String.eqb_neq in Hob. rewrite Hob.
  destruct (insertionSort_sorted (orderBy q) (orderDesc q) rs Hall [])
    as (out & Hsort & Hsorted); [constructor|constructor|].
  unfold sortSlice. rewrite Hsort.
  replace (0 <? offset q)%Z with false by (symmetry; apply Z.ltb_ge; lia).
  replace (0 <? limit q)%Z with false by (symmetry; apply Z.ltb_ge; lia).
  simpl. exists out. split_and!; [done| |done].
  apply insertionSort_perm in Hsort. by rewrite Hsort.
Qed.

(** X22. A query with OrderBy whose filters leave at most one record does
    not call the less function: the field need not hold a Comparable value,
    nor exist, and Execute does not panic. Whatever the limit, it returns
    the records the filters leave, or the empty list when the offset is
    positive (it then skips the one record there may be). *)
Theorem Execute_OrderBy_single q tx db rs :
  filterAll (filters q) (GetAll range tx db (entityType_ q)) = Returns rs ->
  length rs <= 1 ->
  Execute range q tx db = Returns (if (0 <? offset q)%Z then [] else rs, None).
Proof.
  intros Hf Hlen. unfold Execute. rewrite Hf.
  assert (Hs : (if String.eqb (orderBy q) "" then Returns rs
                else sortSlice (orderLess (orderBy q) (orderDesc q)) rs) = Returns rs).
  { destruct (String.eqb (orderBy q) ""); [done|].
    destruct rs as [|x [|y rs]]; [done|done|simpl in Hlen; lia]. }
  rewrite Hs.
  destruct (0 <? offset q)%Z eqn:Hoff.
  - apply Z.ltb_lt in Hoff.
    replace (Z.of_nat (length rs) <=? offset q)%Z with true
      by (symmetry; apply Z.leb_le; lia).
    done.
  - simpl.
    destruct ((0 <? limit q)%Z && (limit q <? Z.of_nat (length rs))%Z) eqn:Hl; [|done].
    apply andb_true_iff in Hl as [Hl1 Hl2]. apply Z.ltb_lt in Hl1, Hl2.
    rewrite firstn_all2; [done|]. lia.
Qed.

End ExecuteFacts.

(** ** WhereLike *)

Lemma prefix_spec sub s : String.prefix sub s = true <-> exists post, s = sub ++ post.
Proof.
  revert s. induction sub as [|a sub IH]; intros s; simpl.
  - destruct s; simpl; (split; [intros _; by eexists|done]).
  - destruct s as [|b s]; simpl.
    + split; [done|]. by intros [post H].
    + destruct (Ascii.ascii_dec a b) as [->|Hne].
      * rewrite IH. split; intros [post H]; exists post; [by rewrite H|by inversion H].
      * split; [done|]. intros [post H]. inversion H. congruence.
Qed.

Lemma contains_from_spec sub fuel s :
  String.length s <= fuel ->
  contains_from fuel s sub = true <-> exists pre post, s = pre ++ sub ++ post.
Proof.
  revert s. induction fuel as [|fuel IH]; intros s Hlen.
  - destruct s; [|simpl in Hlen; lia].
    change (contains_from 0 "" sub) with (if String.prefix sub "" then true else false).
    destruct (String.prefix sub "") eqn:Hp.
    + apply prefix_spec in Hp as [post Hp]. split; [|done]. intros _. by exists "", post.
    + split; [done|]. intros (pre & post & H).
      destruct pre; [|done]. simpl in H.
      assert (String.prefix sub "" = true) by (apply prefix_spec; eauto). congruence.
  - change (contains_from (S fuel) s sub)
      with (if String.prefix sub s then true
            else match s with
                 | String _ s' => contains_from fuel s' sub
                 | EmptyString => false
                 end).
    destruct (String.prefix sub s) eqn:Hp.
    + apply prefix_spec in Hp as [post Hp]. split; [|done]. intros _. by exists "", post.
    + destruct s as [|c s].
      * split; [done|]. intros (pre & post & H).
        destruct pre; [|done]. simpl in H.
        assert (String.prefix sub "" = true) by (apply prefix_spec; eauto). congruence.
      * rewrite IH by (simpl in Hlen; lia). split.
        -- intros (pre & post & ->). by exists (String c pre), post.
        -- intros (pre & post & H). destruct pre as [|c' pre].
           ++ simpl in H.
              assert (String.prefix sub (String c s) = true) by (apply prefix_spec; eauto).
              congruence.
           ++ inversion H; subst. by exists pre, post.
Qed.

(** X23. WhereLike adds, after the filters already there, a filter that
    never panics and accepts exactly the records whose field, rendered by
    String() of reflect, contains the value as a contiguous substring (a
    field that is not a string is matched on its placeholder text, and the
    empty value matches every record). *)
Theorem WhereLike_filter field value q :
  exists f,
    filters (WhereLike field value q) = (filters q ++ [f])%list /\
    forall e,
      (f e = Returns true <->
       exists pre post, ValueString (FieldByName e field) = pre ++ value ++ post) /\
      (f e = Returns true \/ f e = Returns false).
Proof.
  eexists. split; [reflexivity|]. intros e. simpl. split.
  - unfold Contains. rewrite <- (contains_from_spec value _ _ (le_n _)).
    split; [by intros [= ->]|by intros ->].
  - destruct (Contains _ _); by eauto.
Qed.

(** * Loading, and the version marker *)

Lemma load_lookup raw ty id :
  nested_lookup ty id (data (load raw)) = GenericEntity id <$> nested_lookup ty id raw.
Proof.
  unfold nested_lookup, load. simpl. rewrite lookup_fmap.
  destruct (raw !! ty) as [entities|]; simpl; [|done].
  rewrite map_lookup_imap. by destruct (entities !! id).
Qed.

(** X24. A store loaded from a file holds every object of the file as a
    *GenericEntity under its own id, with an empty cache: Get in a new
    transaction returns that entity for an id of the file, and "not found"
    for any other. *)
Theorem load_Get raw now ro entityType id :
  well_keyed (data (load raw)) /\
  (Get now (Transact ro) (load raw) entityType id).1 =
  match nested_lookup entityType id raw with
  | Some fields => (Some (GenericEntity id fields), true)
  | None => (None, false)
  end.
Proof.
  split.
  - intros ty i e He. rewrite load_lookup in He.
    destruct (nested_lookup ty i raw); by inversion He.
  - pose proof (load_lookup raw entityType id) as Hl. unfold nested_lookup in Hl.
    unfold Get, cache_Get. simpl. rewrite !lookup_empty. simpl.
    simpl in Hl. rewrite Hl. unfold nested_lookup.
    by destruct (raw !! entityType ≫= _).
Qed.

(** X25. After a restart Migrate fails once a version marker has been
    persisted: load makes the marker a *GenericEntity, which
    getCurrentVersion refuses, so Migrate on a loaded store that holds the
    marker returns "invalid entity type for migration version" for every
    target, runs no migration, and leaves the canonical map and the file
    as they are. *)
Theorem Migrate_after_load_fails
  (range : forall A : Type, gmap string A -> list (string * A))
  now io reg targetVersion raw fields :
  nested_lookup "migration" "current_version" raw = Some fields ->
  exists db',
    Migrate range now io reg targetVersion (load raw)
      = Returns (db', Some "invalid entity type for migration version") /\
    data db' = data (load raw) /\
    disk db' = disk (load raw).
Proof.
  intros Hraw.
  pose proof (load_lookup raw "migration" "current_version") as Hl.
  rewrite Hraw in Hl. unfold nested_lookup in Hl. simpl in Hl.
  unfold Migrate, getCurrentVersion, Get, cache_Get. simpl. rewrite !lookup_empty. simpl.
  rewrite Hl. simpl. eexists. by split_and!.
Qed.

(** X26. The version marker is read back as it was staged: after
    setCurrentVersion returned nil, with post-set hooks that leave the
    staged marker alone, getCurrentVersion in the same transaction returns
    that version, whatever the store holds, and does not touch the store. *)
Theorem version_marker_round_trip reg version tx db tx' db' now db'' :
  hooks_keep_marker reg ->
  setCurrentVersion reg version tx db = (tx', db', None) ->
  getCurrentVersion now tx' db'' = ((version, None), db'').
Proof.
  intros Hkeep Hset. apply setCurrentVersion_marker in Hset as [_ Hm]; [|done].
  unfold getCurrentVersion. by rewrite (Get_overlay_hit _ _ _ _ _ _ Hm).
Qed.

Lemma pending_nil currentVersion targetVersion ms :
  (targetVersion <= currentVersion)%Z -> pending currentVersion targetVersion ms = [].
Proof.
  intros Hle. induction ms as [|m ms IH]; simpl; [done|].
  unfold inRange. rewrite IH.
  destruct (currentVersion <? Version m)%Z eqn:H1; [|done].
  destruct (Version m <=? targetVersion)%Z eqn:H2; [|done].
  apply Z.ltb_lt in H1. apply Z.leb_le in H2. lia.
Qed.

Section MigrateMore.

Variable range : forall A : Type, gmap string A -> list (string * A).
Hypothesis range_perm : forall (A : Type) (m : gmap string A), range A m ≡ₚ map_to_list m.

(** X27. Migrate to a target that is not above the current version
    invokes no up-function and stages nothing, whatever migrations are
    registered: it commits an empty overlay, so it returns the outcome of
    the file write and the store is the one the reading of the marker left,
    with the file written on success. *)
Theorem Migrate_target_reached now io reg targetVersion db currentVersion db0 :
  getCurrentVersion now (Transact false) db = ((currentVersion, None), db0) ->
  (targetVersion <= currentVersion)%Z ->
  Migrate range now io reg targetVersion db = Returns (save io db0).
Proof.
  intros Hcv Hle.
  apply (Migrate_nothing_pending range range_perm _ _ _ _ _ _ _ Hcv).
  by apply pending_nil.
Qed.

End MigrateMore.

(** ** Where and WhereIn *)

Lemma anyEqual_spec fieldValue values :
  anyEqual fieldValue values = true <->
  exists v, v ∈ values /\ fieldValue = literalValue v.
Proof.
  induction values as [|v values IH]; simpl.
  - split; [done|]. intros (v & Hv & _). by apply elem_of_nil in Hv.
  - unfold interfaceEq at 1. destruct (bool_decide_reflect (fieldValue = literalValue v)).
    + split; [|done]. intros _. exists v. split; [by left|done].
    + rewrite IH. split.
      * intros (w & Hw & Heq). exists w. split; [by right|done].
      * intros (w & Hw & Heq). apply elem_of_cons in Hw as [->|Hw]; [done|by eauto].
Qed.

(** X28. Where and WhereIn add, after the filters already there, a filter
    that panics exactly on a record without the field, accepts a record
    exactly when its field equals the value (Where) or one of the values
    (WhereIn, which so rejects every record for an empty list), and
    rejects a field of another type without panicking. *)
Theorem Where_filters field value values q :
  (exists f,
     filters (Where field value q) = (filters q ++ [f])%list /\
     forall e,
       (f e = Panics <-> FieldByName e field = None) /\
       (f e = Returns true <-> FieldByName e field = Some (literalValue value))) /\
  (exists f,
     filters (WhereIn field values q) = (filters q ++ [f])%list /\
     forall e,
       (f e = Panics <-> FieldByName e field = None) /\
       (f e = Returns true <->
        exists v, v ∈ values /\ FieldByName e field = Some (literalValue v))).
Proof.
  split; (eexists; split; [reflexivity|]); intros e; simpl;
    destruct (FieldByName e field) as [fv|]; (split; [done|]).
  - unfold interfaceEq. destruct (bool_decide_reflect (fv = literalValue value)).
    + split; [by intros _; subst|done].
    + split; [done|]. by intros [= ?].
  - split; [done|done].
  - split.
    + intros [= H]. apply anyEqual_spec in H as (v & Hv & ->). by eauto.
    + intros (v & Hv & [= ->]). f_equal. apply anyEqual_spec. by eauto.
  - split; [done|]. by intros (v & _ & ?).
Qed.

(** * The further properties at concrete stores *)

Lemma noCallbacks_no_hooks operation : no_hooks noCallbacks operation.
Proof. unfold no_hooks, hooksFor. simpl. by rewrite lookup_empty. Qed.

Lemma db_two_unindexed entityType : unindexed entityType db_two.
Proof.
  intros field. assert (H : indexes db_two = ∅) by (vm_compute; reflexivity).
  unfold nested_lookup. by rewrite H, lookup_empty.
Qed.

Lemma tx_tombstone_changes : changes tx_tombstone = {[ "test" := {[ "1" := None ]} ]}.
Proof. vm_compute. reflexivity. Qed.

Lemma Commit_returns_witness :
  nested_lookup "test" "1" (changes tx_tombstone) = Some None /\
  exists tx' db' e, Commit range_list 1 WriteOk tx_tombstone db_two = Returns (tx', db', e).
Proof.
  split; [vm_compute; reflexivity|].
  exact (Commit_returns range_list range_list_perm 1 WriteOk tx_tombstone db_two
           (fun ty id _ => db_two_unindexed ty)).
Defined.

Lemma Get_after_Commit_witness :
  Commit range_list 1 WriteOk tx_tombstone db_two
    = Returns (committedTx (Commit range_list 1 WriteOk tx_tombstone db_two), db_deleted, None) /\
  (Get 5 (Transact true) db_two "test" "1").1 = (Some alice, true) /\
  (Get 5 (Transact true) db_deleted "test" "1").1 = (None, false).
Proof.
  assert (H : Commit range_list 1 WriteOk tx_tombstone db_two
              = Returns (committedTx (Commit range_list 1 WriteOk tx_tombstone db_two),
                         db_deleted, None)) by (vm_compute; reflexivity).
  split_and!; [exact H|vm_compute; reflexivity|].
  refine (Get_after_Commit range_list range_list_perm 1 WriteOk tx_tombstone db_two _ _ _
            "test" "1" None 5 true eq_refl _ _ H).
  - intros ty entries Hty. rewrite tx_tombstone_changes in Hty.
    destruct (decide (ty = "test")) as [->|Hne]; [reflexivity|].
    by rewrite lookup_singleton_ne in Hty.
  - vm_compute. reflexivity.
Defined.

Lemma Commit_keeps_other_records_witness :
  nested_lookup "test" "2" (data db_deleted) = Some bob.
Proof.
  assert (H : Commit range_list 1 WriteOk tx_tombstone db_two
              = Returns (committedTx (Commit range_list 1 WriteOk tx_tombstone db_two),
                         db_deleted, None)) by (vm_compute; reflexivity).
  assert (Hn : nested_lookup "test" "2" (changes tx_tombstone) = None)
    by (vm_compute; reflexivity).
  rewrite (Commit_keeps_other_records range_list range_list_perm _ _ _ _ _ _ _ _ _ Hn H).
  vm_compute. reflexivity.
Defined.

Lemma Commit_buckets_grow_witness :
  occurrences "1" (bucket "test" "Name" "Alice" db_alice)
  <= occurrences "1" (bucket "test" "Name" "Alice" db_renamed).
Proof.
  assert (H : Commit range_list 1 WriteOk tx_rename db_alice
              = Returns (committedTx (Commit range_list 1 WriteOk tx_rename db_alice),
                         db_renamed, None)) by (vm_compute; reflexivity).
  exact (Commit_buckets_grow range_list range_list_perm _ _ _ _ _ _ _
           "test" "Name" "Alice" "1" H).
Defined.

Lemma Commit_after_Rollback_witness :
  exists tx',
    Commit range_list 0 WriteOk (Rollback tx_alice) db_indexed
      = Returns (tx', (save WriteOk db_indexed).1, (save WriteOk db_indexed).2) /\
    committed tx' = true.
Proof.
  exact (Commit_after_Rollback range_list range_list_perm 0 WriteOk tx_alice db_indexed
           eq_refl).
Defined.

Lemma getCacheKey_inj_witness :
  getCacheKey "test" "b:c" = "test:b:c" /\ ("test" = "test" /\ "b:c" = "b:c").
Proof.
  split; [reflexivity|].
  exact (getCacheKey_inj "test" "b:c" "test" "b:c" eq_refl eq_refl eq_refl).
Defined.

Lemma AddIndex_exact_witness :
  occurrences "2" (bucket "test" "Name" "Bob" (AddIndex range_list "test" "Name" db_two)) = 1 /\
  occurrences "2" (bucket "test" "Name" "Alice" (AddIndex range_list "test" "Name" db_two)) = 0.
Proof.
  split.
  - rewrite (AddIndex_exact range_list range_list_perm). vm_compute. reflexivity.
  - rewrite (AddIndex_exact range_list range_list_perm). vm_compute. reflexivity.
Defined.

Lemma readOnly_rejects_writes_witness :
  exists err, Set_ noCallbacks "test" alice (Transact true) db_two
              = (Transact true, db_two, Some err).
Proof.
  exact (proj1 (readOnly_rejects_writes 0 noCallbacks "test" alice "1" [] []
                  (Transact true) db_two eq_refl)).
Defined.

Lemma auditHooks_keep_entry entityType id :
  hooks_keep_entry (hooksOnly auditHooks) "post-set" entityType id.
Proof.
  intros h Hin. unfold hooksFor in Hin. simpl in Hin.
  apply auditHooks_only in Hin as ->. intros tx db ty entity.
  unfold auditHook. by destruct (Get 0 tx db "audit" "log").
Qed.

Lemma Get_after_Set_witness :
  Get 7 (Set_ (hooksOnly auditHooks) "test" bob (Transact false) db_alice).1.1 db_alice
      "test" "2"
  = ((Some bob, true), db_alice).
Proof.
  assert (H : Set_ (hooksOnly auditHooks) "test" bob (Transact false) db_alice
              = ((Set_ (hooksOnly auditHooks) "test" bob (Transact false) db_alice).1.1,
                 (Set_ (hooksOnly auditHooks) "test" bob (Transact false) db_alice).1.2,
                 None)) by (vm_compute; reflexivity).
  exact (Get_after_Set (hooksOnly auditHooks) "test" bob (Transact false) db_alice _ _ 7
           db_alice (auditHooks_keep_entry "test" "2") H).
Defined.

Lemma BatchSet_stages_all_witness :
  exists tx',
    BatchSet noCallbacks "test" [alice; bob] (Transact false) db_indexed
      = (tx', db_indexed, None) /\
    Get 3 tx' db_indexed "test" "2" = ((Some bob, true), db_indexed).
Proof.
  assert (Hnd : NoDup (GetID <$> [alice; bob])).
  { apply NoDup_ListNoDup. simpl. repeat constructor; simpl; intuition discriminate. }
  destruct (BatchSet_stages_all noCallbacks "test" [alice; bob] (Transact false) db_indexed
              eq_refl (noCallbacks_no_hooks _) (noCallbacks_no_hooks _) Hnd)
    as (tx' & Hrun & Hget & _).
  exists tx'. split; [exact Hrun|].
  apply (Hget bob). right. by left.
Defined.

Lemma Delete_missing_skips_hooks_witness :
  Delete 0 (hooksOnly auditHooks) "test" "9" (Transact false) db_alice
  = (stage "test" "9" None (Transact false), db_alice, None).
Proof.
  refine (Delete_missing_skips_hooks 0 (hooksOnly auditHooks) "test" "9" (Transact false)
            db_alice eq_refl _).
  vm_compute. reflexivity.
Defined.

Lemma Get_twice_witness :
  cache_Get 1000000000000 (cache db_alice) (getCacheKey "test" "1") = None /\
  Get 1000000000000 (Transact true)
      (Get 1000000000000 (Transact true) db_alice "test" "1").2 "test" "1"
  = Get 1000000000000 (Transact true) db_alice "test" "1".
Proof.
  split; [vm_compute; reflexivity|].
  destruct (Get 1000000000000 (Transact true) db_alice "test" "1") as [r db'] eqn:H.
  exact (Get_twice _ _ _ _ _ _ _ H).
Defined.

Lemma empty_overlay_well_keyed : well_keyed_overlay (changes (Transact false)).
Proof. intros ty id e H. unfold nested_lookup in H. simpl in H. by rewrite lookup_empty in H. Qed.

Lemma runOps_well_keyed_witness :
  well_keyed_overlay
    (changes (runOps noCallbacks [OpSet "test" alice; OpDelete 0 "test" "2"]
                (Transact false) db_two).1).
Proof.
  destruct (runOps noCallbacks [OpSet "test" alice; OpDelete 0 "test" "2"]
              (Transact false) db_two) as [tx' db'] eqn:H.
  exact (runOps_well_keyed noCallbacks _ _ _ _ _ noCallbacks_no_hooks
           empty_overlay_well_keyed H).
Defined.

Lemma tx_two_well_keyed : well_keyed_overlay (changes tx_two).
Proof.
  assert (H : tx_two = stage "test" "2" (Some bob) (stage "test" "1" (Some alice) (Transact false)))
    by (vm_compute; reflexivity).
  rewrite H. apply stage_well_keyed; [by intros e [= <-]|].
  apply stage_well_keyed; [by intros e [= <-]|]. apply empty_overlay_well_keyed.
Qed.

Lemma NewDatabase_well_keyed : well_keyed (data NewDatabase).
Proof. intros ty id e H. unfold nested_lookup in H. simpl in H. by rewrite lookup_empty in H. Qed.

Lemma Commit_well_keyed_witness : well_keyed (data db_two).
Proof.
  assert (H : Commit range_list 0 WriteOk tx_two NewDatabase
              = Returns (committedTx (Commit range_list 0 WriteOk tx_two NewDatabase),
                         db_two, None)) by (vm_compute; reflexivity).
  exact (Commit_well_keyed range_list range_list_perm _ _ _ _ _ _ _
           NewDatabase_well_keyed tx_two_well_keyed H).
Defined.

Lemma GetAll_merged_witness :
  NoDup (GetID <$> GetAll range_list tx_two NewDatabase "test") /\
  bob ∈ GetAll range_list tx_two NewDatabase "test".
Proof.
  destruct (GetAll_merged range_list range_list_perm tx_two NewDatabase "test"
              NewDatabase_well_keyed tx_two_well_keyed) as [Hnd Hin].
  split; [exact Hnd|]. apply Hin. vm_compute. reflexivity.
Defined.

Lemma Execute_results_witness :
  Execute range_list (WhereLike "Name" "o" (NewQuery "test")) (Transact true) db_two
    = Returns ([bob], None) /\
  (forall x, x ∈ [bob] ->
     x ∈ GetAll range_list (Transact true) db_two "test" /\
     matches (filters (WhereLike "Name" "o" (NewQuery "test"))) x = Returns true).
Proof.
  assert (H : Execute range_list (WhereLike "Name" "o" (NewQuery "test")) (Transact true)
                db_two = Returns ([bob], None)) by (vm_compute; reflexivity).
  split; [exact H|].
  exact (proj1 (proj2 (Execute_results range_list _ _ _ _ _ H))).
Defined.

Lemma tasks_ranked :
  Forall (fun e => is_Some (rankOf "Priority" e)) [task "c" 2; task "a" 3; task "b" 1].
Proof. repeat constructor; by eexists. Qed.

Lemma Execute_OrderBy_sorted_witness :
  exists results,
    Execute range_list (OrderBy "Priority" false (NewQuery "task")) (Transact true) db_tasks
      = Returns (results, None) /\
    results ≡ₚ [task "c" 2; task "a" 3; task "b" 1] /\
    StronglySorted (ordered "Priority" false) results.
Proof.
  refine (Execute_OrderBy_sorted range_list
            (OrderBy "Priority" false (NewQuery "task")) (Transact true) db_tasks
            [task "c" 2; task "a" 3; task "b" 1] _ _ _ _ tasks_ranked).
  - discriminate.
  - simpl. lia.
  - simpl. lia.
  - vm_compute. reflexivity.
Defined.

Lemma Execute_OrderBy_single_witness :
  Execute range_list (OrderBy "Name" false (NewQuery "test")) (Transact true) db_alice
  = Returns ([alice], None).
Proof.
  refine (Execute_OrderBy_single range_list (OrderBy "Name" false (NewQuery "test"))
            (Transact true) db_alice [alice] _ _).
  - vm_compute. reflexivity.
  - simpl. lia.
Defined.

Lemma Migrate_after_load_fails_witness :
  exists db',
    Migrate range_list 0 WriteOk reg_12 2 (load raw_marker)
      = Returns (db', Some "invalid entity type for migration version") /\
    data db' = data (load raw_marker) /\
    disk db' = disk (load raw_marker).
Proof.
  refine (Migrate_after_load_fails range_list 0 WriteOk reg_12 2 raw_marker
            {[ "id" := VString "current_version"; "version" := VOpaque "float64" ]} _).
  vm_compute. reflexivity.
Defined.

Lemma version_marker_round_trip_witness :
  getCurrentVersion 9 (setCurrentVersion reg_12 3 (Transact false) NewDatabase).1.1 db_two
  = ((3%Z, None), db_two).
Proof.
  assert (H : setCurrentVersion reg_12 3 (Transact false) NewDatabase
              = ((setCurrentVersion reg_12 3 (Transact false) NewDatabase).1.1,
                 (setCurrentVersion reg_12 3 (Transact false) NewDatabase).1.2, None))
    by (vm_compute; reflexivity).
  exact (version_marker_round_trip reg_12 3 (Transact false) NewDatabase _ _ 9 db_two
           (auditHooks_keep_marker reg_12 eq_refl) H).
Defined.

Lemma Migrate_target_reached_witness :
  marker db_12 = Some (MigrationVersion "current_version" 2) /\
  Migrate range_list 0 WriteOk reg_12 1 db_12 = Returns (save WriteOk db_12).
Proof.
  split; [vm_compute; reflexivity|].
  refine (Migrate_target_reached range_list range_list_perm 0 WriteOk reg_12 1 db_12 2 db_12
            _ _).
  - vm_compute. reflexivity.
  - lia.
Defined.
